(** * lore: the scenario language (reader, lexer, parser, scene model)

    A shallow embedding of [src/scenario/parser.ts] and
    [src/scenario/scene.ts].  JavaScript numbers that hold cursor positions
    and lookahead widths are integers ([Z]); strings are [string]; a promise
    that is awaited is the outcome of running the callee on the current
    reader state ([M]): a value, a thrown exception, or, for the loops of the
    lexer and of the parser, the exhaustion of the loop budget of the
    model. *)

From Stdlib Require Import ZArith Ascii String List Lia Bool.
From stdpp Require Import base option gmap strings list fin_maps.

Open Scope Z_scope.
Open Scope string_scope.

(** ** Exceptions and outcomes *)

(** The three error constructors the code uses. *)
Inductive exn : Type :=
| RangeError (msg : string)
| SyntaxError (msg : string)
| Error (msg : string).

(** What a call produces: a value, a rejected promise / thrown exception,
    or [OutOfFuel] when a loop of the model ran out of its budget (the
    source has no such outcome; the theorems show where it cannot occur). *)
Inductive outcome (A : Type) : Type :=
| Return (a : A)
| Throw (e : exn)
| OutOfFuel.
Arguments Return {A} a.
Arguments Throw {A} e.
Arguments OutOfFuel {A}.

(** ** JavaScript string primitives *)

Module JS.

(** [s.substring(start, end)]: both indices are clamped to [0, length]
    and swapped when start exceeds end. *)
Definition clamp (len i : Z) : Z := Z.max 0 (Z.min i len).

Definition substring (s : string) (start end_ : Z) : string :=
  let len := Z.of_nat (String.length s) in
  let a := clamp len start in
  let b := clamp len end_ in
  let lo := Z.min a b in
  let hi := Z.max a b in
  String.substring (Z.to_nat lo) (Z.to_nat (hi - lo)) s.

(** [xs.includes(s)] on an array of strings. *)
Definition includes (xs : list string) (s : string) : bool :=
  existsb (String.eqb s) xs.

End JS.

(** ** BufferReader *)

Record BufferReader : Type := mkReader {
  _source : string;
  _pos : Z
}.

(** [new BufferReader(source)] *)
Definition newBufferReader (source : string) : BufferReader :=
  {| _source := source; _pos := 0 |}.

(** Computations over the reader: the reader state survives a throw, as
    the object does in the source. *)
Definition M (A : Type) : Type := BufferReader -> outcome A * BufferReader.

Definition ret {A} (a : A) : M A := fun r => (Return a, r).
Definition throw {A} (e : exn) : M A := fun r => (Throw e, r).
Definition out_of_fuel {A} : M A := fun r => (OutOfFuel, r).

Definition bind {A B} (m : M A) (f : A -> M B) : M B :=
  fun r =>
    match m r with
    | (Return a, r') => f a r'
    | (Throw e, r') => (Throw e, r')
    | (OutOfFuel, r') => (OutOfFuel, r')
    end.

Notation "'do' x <- m ; f" := (bind m (fun x => f))
  (at level 10, x name, m at level 100, f at level 200,
   format "'[v' 'do'  x  <-  m ;  '/' f ']'").
Notation "'do_' m ; f" := (bind m (fun _ => f))
  (at level 10, m at level 100, f at level 200,
   format "'[v' 'do_'  m ;  '/' f ']'").

Definition source_length (r : BufferReader) : Z :=
  Z.of_nat (String.length (_source r)).

(** [peek(k)] *)
Definition peek (k : Z) : M string :=
  fun r =>
    let start := _pos r in
    let end_ := _pos r + k in
    if end_ >? source_length r
    then (Throw (RangeError "k lies outside source buffer"), r)
    else (Return (JS.substring (_source r) start end_), r).

(** [read(k)]: the body of [peek] runs to completion at the call (it has no
    suspension point), so its promise [s] is already settled from the
    cursor before the increment; the increment happens whether [s] is
    fulfilled or rejected, and [return s] adopts the outcome of [s].  The
    sum is the one of the integers: it is the sum of the code as long as
    cursor, width and sum are safe integers (below 2^53 in size). *)
Definition read (k : Z) : M string :=
  fun r =>
    let (s, r1) := peek k r in
    let r2 := {| _source := _source r1; _pos := _pos r1 + k |} in
    (s, r2).

(** [isEOF()] *)
Definition isEOF (r : BufferReader) : bool :=
  _pos r >=? source_length r.

(** The loops of the lexer and of the parser are bounded in the model by the
    number of unread characters plus one: every iteration that does not
    leave its loop consumes at least one character. *)
Definition gas (r : BufferReader) : nat :=
  S (Z.to_nat (source_length r - _pos r)).

Definition with_gas {A} (loop : nat -> M A) : M A :=
  fun r => loop (gas r) r.

(** [this._reader.isEOF()] as a step of a computation. *)
Definition atEOF : M bool := fun r => (Return (isEOF r), r).

(** ** Tokens *)

Inductive TokenType : Type :=
| KEYWORD | COMMENT | IDENTIFIER | STRING | OPEN_BRACE | CLOSE_BRACE.

Definition TokenType_eqb (a b : TokenType) : bool :=
  match a, b with
  | KEYWORD, KEYWORD | COMMENT, COMMENT | IDENTIFIER, IDENTIFIER
  | STRING, STRING | OPEN_BRACE, OPEN_BRACE | CLOSE_BRACE, CLOSE_BRACE => true
  | _, _ => false
  end.

(** The string value of each enum member, as template literals print it. *)
Definition TokenType_str (t : TokenType) : string :=
  match t with
  | KEYWORD => "KEYWORD"
  | COMMENT => "COMMENT"
  | IDENTIFIER => "IDENTIFIER"
  | STRING => "STRING"
  | OPEN_BRACE => "OPEN_BRACE"
  | CLOSE_BRACE => "CLOSE_BRACE"
  end.

Record Token : Type := mkToken {
  type : TokenType;
  value : string
}.

Definition keywords : list string := ["author"; "scene"; "branch"; "jump"].

(** One-character strings the lexer compares against. *)
Definition chr (a : ascii) : string := String a EmptyString.
Definition TAB : string := chr "009".
Definition LF : string := chr "010".
Definition CR : string := chr "013".
Definition SPACE : string := chr " ".
Definition DQUOTE : string := chr "034".
Definition BACKSLASH : string := chr "\".
Definition HASH : string := chr "#".
Definition LBRACE : string := chr "{".
Definition RBRACE : string := chr "}".

(** ** Lexer *)

Module Lexer.

(** [isWhitespace(c)] *)
Definition isWhitespace (c : string) : bool :=
  (c =? SPACE) || (c =? TAB) || (c =? LF) || (c =? CR).

(** [eatWhitespace()] *)
Fixpoint eatWhitespace_loop (fuel : nat) : M unit :=
  match fuel with
  | O => out_of_fuel
  | S fuel' =>
      do eof <- atEOF;
      if eof then ret tt else
      do c <- peek 1;
      if (c =? TAB) || (c =? SPACE)
      then do_ read 1; eatWhitespace_loop fuel'
      else ret tt
  end.

Definition eatWhitespace : M unit := with_gas eatWhitespace_loop.

(** The [while] of [comment()]; [s] is the text accumulated so far. *)
Fixpoint comment_loop (fuel : nat) (s : string) : M string :=
  match fuel with
  | O => out_of_fuel
  | S fuel' =>
      do eof <- atEOF;
      if eof then ret s else
      do c <- peek 1;
      if (c =? CR) || (c =? LF) then ret s else
      do x <- read 1;
      comment_loop fuel' (s ++ x)
  end.

(** [comment()] *)
Definition comment : M Token :=
  do c <- peek 1;
  if negb (c =? HASH) then throw (SyntaxError "Expected #") else
  do_ read 1;
  do_ eatWhitespace;
  do s <- with_gas (fun fuel => comment_loop fuel "");
  ret {| type := COMMENT; value := s |}.

(** The [while] of [keywordOrIdentifier()]. *)
Fixpoint keywordOrIdentifier_loop (fuel : nat) (s : string) : M string :=
  match fuel with
  | O => out_of_fuel
  | S fuel' =>
      do eof <- atEOF;
      if eof then ret s else
      do c <- peek 1;
      if isWhitespace c then ret s else
      do x <- read 1;
      keywordOrIdentifier_loop fuel' (s ++ x)
  end.

(** [keywordOrIdentifier()] *)
Definition keywordOrIdentifier : M Token :=
  do s <- with_gas (fun fuel => keywordOrIdentifier_loop fuel "");
  if JS.includes keywords s
  then ret {| type := KEYWORD; value := s |}
  else ret {| type := IDENTIFIER; value := s |}.

(** The [while] of [stringLiteral()].  The escape branch has no
    [continue]: after it, control falls through the tests on [c] (still
    the backslash) down to the unconditional [s += read()]. *)
Fixpoint stringLiteral_loop (fuel : nat) (s : string) : M Token :=
  match fuel with
  | O => out_of_fuel
  | S fuel' =>
      do eof <- atEOF;
      if eof then throw (Error "End of source") else
      do c <- peek 1;
      do s1 <- (if c =? BACKSLASH
                then do_ read 1; do x <- read 1; ret (s ++ x)
                else ret s);
      if c =? DQUOTE
      then do_ read 1; ret {| type := STRING; value := s1 |}
      else if c =? CR
      then do_ read 1; stringLiteral_loop fuel' s1
      else
        do x <- read 1;
        do_ (if (c =? LF) || (c =? SPACE) then eatWhitespace else ret tt);
        stringLiteral_loop fuel' (s1 ++ x)
  end.

(** [stringLiteral()] *)
Definition stringLiteral : M Token :=
  do c <- peek 1;
  if negb (c =? DQUOTE) then throw (SyntaxError ("Expected " ++ DQUOTE)) else
  do_ read 1;
  with_gas (fun fuel => stringLiteral_loop fuel "").

(** The [while] of [nextToken()]; [None] is [undefined]. *)
Fixpoint nextToken_loop (fuel : nat) : M (option Token) :=
  match fuel with
  | O => out_of_fuel
  | S fuel' =>
      do eof <- atEOF;
      if eof then ret None else
      do c <- peek 1;
      if c =? HASH then do_ comment; nextToken_loop fuel'
      else if c =? DQUOTE then do t <- stringLiteral; ret (Some t)
      else if c =? LBRACE
      then do v <- read 1; ret (Some {| type := OPEN_BRACE; value := v |})
      else if c =? RBRACE
      then do v <- read 1; ret (Some {| type := CLOSE_BRACE; value := v |})
      else if (c =? SPACE) || (c =? TAB) || (c =? CR) || (c =? LF)
      then do_ read 1; nextToken_loop fuel'
      else do t <- keywordOrIdentifier; ret (Some t)
  end.

(** [nextToken()] *)
Definition nextToken : M (option Token) := with_gas nextToken_loop.

End Lexer.

(** ** Scene model ([scenario/scene.ts], the module the parser imports) *)

Record Author : Type := mkAuthor { author_id : string }.

Record Branch : Type := mkBranch { branch_id : string }.

Record Scene : Type := mkScene {
  scene_id : string;
  _authors : list Author;
  _branches : gmap string Branch
}.

(** [new Scene(id)] *)
Definition newScene (id : string) : Scene :=
  {| scene_id := id; _authors := []; _branches := ∅ |}.

(** [addBranch(branch)]: [Map.set] overwrites an existing key. *)
Definition addBranch (branch : Branch) (scene : Scene) : Scene :=
  {| scene_id := scene_id scene;
     _authors := _authors scene;
     _branches := <[branch_id branch := branch]> (_branches scene) |}.

(** [addAuthor(author)]: [find] yields an object (truthy) or [undefined]. *)
Definition addAuthor (author : Author) (scene : Scene) : Scene :=
  match List.find (fun a => author_id a =? author_id author) (_authors scene) with
  | Some _ => scene
  | None =>
      {| scene_id := scene_id scene;
         _authors := _authors scene ++ [author];
         _branches := _branches scene |}
  end.

(** ** The richer scene model (the second definition of the same classes,
    with a [Block] in every [Branch]) *)

Module Rich.

(** The two implementations of the [Action] interface in
    [scenario/actions.ts], and the [Return] flow marker. *)
Inductive Step : Type :=
| TextAction (text : string)
| JumpAction (label : string)
| Return_.

Record Block : Type := mkBlock { _body : list Step }.

Definition Block_get (n : nat) (b : Block) : option Step := _body b !! n.
Definition Block_append (action : Step) (b : Block) : Block :=
  {| _body := _body b ++ [action] |}.
Definition Block_length (b : Block) : nat := List.length (_body b).

Record Branch : Type := mkBranch { branch_id : string; block : Block }.

Record Scene : Type := mkScene {
  scene_id : string;
  _authors : list Author;
  _branches : gmap string Branch
}.

Definition addBranch (branch : Branch) (scene : Scene) : Scene :=
  {| scene_id := scene_id scene;
     _authors := _authors scene;
     _branches := <[branch_id branch := branch]> (_branches scene) |}.

Definition addAuthor (author : Author) (scene : Scene) : Scene :=
  match List.find (fun a => author_id a =? author_id author) (_authors scene) with
  | Some _ => scene
  | None =>
      {| scene_id := scene_id scene;
         _authors := _authors scene ++ [author];
         _branches := _branches scene |}
  end.

End Rich.

(** ** Parser *)

Module Parser.

(** [token?.type] inside a template literal. *)
Definition type_str (token : option Token) : string :=
  match token with
  | Some t => TokenType_str (type t)
  | None => "undefined"
  end.

(** The token when it is present and of type [ty]: the negation of the
    guard [token === undefined || token.type !== ty]. *)
Definition has_type (ty : TokenType) (token : option Token) : option Token :=
  match token with
  | Some t => if TokenType_eqb (type t) ty then Some t else None
  | None => None
  end.

(** The [while] of [branch(scene)].  When the lexer is exhausted the loop
    ends and the method returns with nothing thrown and the scene
    untouched; the value returned here is the scene after the call. *)
Fixpoint branch_loop (fuel : nat) (branch : Branch) (scene : Scene) : M Scene :=
  match fuel with
  | O => out_of_fuel
  | S fuel' =>
      do token <- Lexer.nextToken;
      match token with
      | None => ret scene
      | Some t =>
          if TokenType_eqb (type t) CLOSE_BRACE
          then ret (addBranch branch scene)
          else branch_loop fuel' branch scene
      end
  end.

(** [branch(scene)] *)
Definition branch (scene : Scene) : M Scene :=
  do token <- Lexer.nextToken;
  match has_type IDENTIFIER token with
  | None =>
      throw (SyntaxError ("Expected identifier, got '" ++ type_str token ++ "'"))
  | Some t =>
      let branch := mkBranch (value t) in
      with_gas (fun fuel => branch_loop fuel branch scene)
  end.

(** The [while] of [author()] and the [throw] that follows it. *)
Fixpoint author_loop (fuel : nat) (author : Author) : M Author :=
  match fuel with
  | O => out_of_fuel
  | S fuel' =>
      do token <- Lexer.nextToken;
      match token with
      | None => throw (SyntaxError "Expected CLOSE_BRACE but reached EOF")
      | Some t =>
          if TokenType_eqb (type t) CLOSE_BRACE
          then ret author
          else author_loop fuel' author
      end
  end.

(** [author()] *)
Definition author : M Author :=
  do token <- Lexer.nextToken;
  match has_type IDENTIFIER token with
  | None => throw (SyntaxError ("Expected IDENTIFIER, got " ++ type_str token))
  | Some t => with_gas (fun fuel => author_loop fuel (mkAuthor (value t)))
  end.

(** The [while] of [scene()] and the [throw] that follows it; [authors] is
    the local array of pending authors. *)
Fixpoint scene_loop (fuel : nat) (scene : Scene) (authors : list Author)
  : M Scene :=
  match fuel with
  | O => out_of_fuel
  | S fuel' =>
      do token <- Lexer.nextToken;
      match token with
      | None => throw (SyntaxError "Expected CLOSE_BRACE but reached EOF")
      | Some t =>
          if TokenType_eqb (type t) KEYWORD && (value t =? "author")
          then do a <- author; scene_loop fuel' scene (authors ++ [a])
          else if TokenType_eqb (type t) KEYWORD && (value t =? "branch")
          then do scene' <- branch scene; scene_loop fuel' scene' authors
          else if TokenType_eqb (type t) CLOSE_BRACE
          then ret (fold_left (fun s a => addAuthor a s) authors scene)
          else scene_loop fuel' scene authors
      end
  end.

(** [scene()] *)
Definition scene : M Scene :=
  do token <- Lexer.nextToken;
  match has_type IDENTIFIER token with
  | None => throw (SyntaxError ("Expected IDENTIFIER, got " ++ type_str token))
  | Some t =>
      let scene := newScene (value t) in
      do token <- Lexer.nextToken;
      match has_type OPEN_BRACE token with
      | None =>
          throw (SyntaxError ("Expected OPEN_BRACE, got " ++ type_str token))
      | Some _ => with_gas (fun fuel => scene_loop fuel scene [])
      end
  end.

(** [authors.forEach(a => scenes.forEach(s => s.addAuthor(a)))] *)
Definition broadcast (authors : list Author) (scenes : list Scene) : list Scene :=
  fold_left (fun ss a => map (addAuthor a) ss) authors scenes.

(** The [while] of [parse()] and the statements that follow it. *)
Fixpoint parse_loop (fuel : nat) (scenes : list Scene) (authors : list Author)
  : M (list Scene) :=
  match fuel with
  | O => out_of_fuel
  | S fuel' =>
      do token <- Lexer.nextToken;
      match token with
      | None => ret (broadcast authors scenes)
      | Some t =>
          match type t with
          | KEYWORD =>
              if value t =? "author"
              then do a <- author; parse_loop fuel' scenes (authors ++ [a])
              else if value t =? "scene"
              then do s <- scene; parse_loop fuel' (scenes ++ [s]) authors
              else throw (Error ("Expected keyword 'author' or 'scene', got '"
                                   ++ value t ++ "'"))
          | ty => throw (Error ("Unexpected token type '"
                                  ++ TokenType_str ty ++ "'"))
          end
      end
  end.

(** [parse()] *)
Definition parse : M (list Scene) := with_gas (fun fuel => parse_loop fuel [] []).

End Parser.

(** [new Parser(new Lexer(new BufferReader(source))).parse()] *)
Definition parse_source (source : string) : outcome (list Scene) :=
  fst (Parser.parse (newBufferReader source)).

(** ** Vocabulary of the statements *)

(** The integers that a JavaScript number holds exactly and that add
    without rounding while the sum is one of them too
    ([Number.isSafeInteger]); on them the integer sum of the embedding is
    the sum the code computes. *)
Definition safe_integer (z : Z) : Prop := - (2 ^ 53 - 1) <= z <= 2 ^ 53 - 1.

(** The reader after its cursor moved by [k]. *)
Definition advance (r : BufferReader) (k : Z) : BufferReader :=
  {| _source := _source r; _pos := _pos r + k |}.

(** The author ids a scene holds, in the order of the array. *)
Definition author_ids (scene : Scene) : list string :=
  map author_id (_authors scene).

(** [rest] is what the reader has not consumed yet: the source is some
    consumed text followed by [rest], and the cursor sits between them. *)
Definition unread_is (r : BufferReader) (rest : string) : Prop :=
  exists consumed : string,
    _source r = consumed ++ rest
    /\ _pos r = Z.of_nat (String.length consumed).

(** The reader of [r]'s source at the end of the buffer. *)
Definition at_end (r : BufferReader) : BufferReader :=
  {| _source := _source r; _pos := source_length r |}.

Definition is_hspace (c : ascii) : bool :=
  Ascii.eqb c "009" || Ascii.eqb c " ".

Definition is_newline (c : ascii) : bool :=
  Ascii.eqb c "013" || Ascii.eqb c "010".

Definition is_space (c : ascii) : bool :=
  Ascii.eqb c " " || Ascii.eqb c "009" || Ascii.eqb c "013" || Ascii.eqb c "010".

(** Leading tabs and spaces removed. *)
Fixpoint skip_hspace (s : string) : string :=
  match s with
  | String c s' => if is_hspace c then skip_hspace s' else s
  | EmptyString => EmptyString
  end.

(** What follows the current line: [s] from its first line break on. *)
Fixpoint skip_line (s : string) : string :=
  match s with
  | String c s' => if is_newline c then s else skip_line s'
  | EmptyString => EmptyString
  end.

(** A text of whitespace and comments only: outside a comment every
    character is a space, tab, carriage return or newline, or a [#] that
    opens a comment; a comment runs up to the next line break or to the end
    of the text. *)
Fixpoint blank_from (in_comment : bool) (s : string) : bool :=
  match s with
  | EmptyString => true
  | String c s' =>
      if in_comment
      then blank_from (negb (is_newline c)) s'
      else if is_space c then blank_from false s'
      else if Ascii.eqb c "#" then blank_from true s'
      else false
  end.

Definition only_blanks (s : string) : bool := blank_from false s.

(** A computation started at [r] returns [a] and leaves a reader over the
    same source whose unread text is [rest]. *)
Definition returns_at {A} (m : M A) (r : BufferReader) (a : A) (rest : string)
  : Prop :=
  exists r', m r = (Return a, r') /\ unread_is r' rest /\ _source r' = _source r.

(** The reader after [n] calls of [nextToken()]. *)
Definition after_calls (n : nat) (r : BufferReader) : BufferReader :=
  Nat.iter n (fun r' => snd (Lexer.nextToken r')) r.

(** The text of a string literal, from the opening quote to the closing
    one, and the call of [nextToken()] on a source that starts with it. *)
Definition quoted (body : string) : string := DQUOTE ++ body ++ DQUOTE.

Definition first_token (source : string) : outcome (option Token) :=
  fst (Lexer.nextToken (newBufferReader source)).

(** The value of a string literal as the specification words it, on the
    text that follows the opening quote: a backslash stands for the one
    character after it, a bare carriage return is dropped, tabs and spaces
    that follow an emitted newline or space are skipped ([collapsing]), the
    first unescaped quote ends the literal; [None] when no such quote
    comes. *)
Fixpoint literal_value (collapsing : bool) (s : string) : option string :=
  match s with
  | EmptyString => None
  | String c s' =>
      if collapsing && is_hspace c then literal_value true s'
      else if Ascii.eqb c "\" then
        match s' with
        | String d s'' => option_map (String d) (literal_value false s'')
        | EmptyString => None
        end
      else if Ascii.eqb c "034" then Some EmptyString
      else if Ascii.eqb c "013" then literal_value false s'
      else option_map (String c)
             (literal_value (Ascii.eqb c "010" || Ascii.eqb c " ") s')
  end.

(** The text holds no backslash. *)
Fixpoint no_backslash (s : string) : bool :=
  match s with
  | EmptyString => true
  | String c s' => negb (Ascii.eqb c "\") && no_backslash s'
  end.

(** What [nextToken()] is to yield on a literal of value [v], and on a
    literal that is not closed. *)
Definition literal_token (v : option string) : outcome (option Token) :=
  match v with
  | Some v => Return (Some {| type := STRING; value := v |})
  | None => Throw (Error "End of source")
  end.

(** The two sources of the parsing example: the one of the specification,
    where the branch sits inside the braces of the nested author, and the
    one with the author block closed before the branch. *)
Definition nested_example : string :=
  "author a {} scene s { author a { branch b { } } }".

Definition flat_example : string :=
  "author a {} scene s { author a { } branch b { } }".

(** The document the example is said to yield: one scene [s] whose authors
    are exactly [a] and whose branch map holds exactly [b]. *)
Definition one_scene_s_a_b (result : outcome (list Scene)) : Prop :=
  exists scene : Scene,
    result = Return [scene]
    /\ scene_id scene = "s"
    /\ _authors scene = [mkAuthor "a"]
    /\ _branches scene = {[ "b" := mkBranch "b" ]}.

(** A run from [r] settles: it does not exhaust the budget of the model,
    and when it returns [a] it leaves a reader over the same source whose
    unread text [rest] satisfies [post a rest]. *)
Definition settles {A} (r : BufferReader) (post : A -> string -> Prop)
  (res : outcome A * BufferReader) : Prop :=
  match res with
  | (Return a, r') =>
      exists rest, unread_is r' rest /\ _source r' = _source r /\ post a rest
  | (Throw _, _) => True
  | (OutOfFuel, _) => False
  end.

(** After a token less text is left unread; after [undefined] none is. *)
Definition token_taken (before : string) (token : option Token) (rest : string)
  : Prop :=
  match token with
  | Some _ => (String.length rest < String.length before)%nat
  | None => rest = EmptyString
  end.

(** No more text is left unread than before. *)
Definition not_longer {A} (before : string) (_ : A) (rest : string) : Prop :=
  (String.length rest <= String.length before)%nat.

(** The tokens that end a block body, and those the body of a scene acts
    upon. *)
Definition closes (t : Token) : bool := TokenType_eqb (type t) CLOSE_BRACE.

Definition scene_item (t : Token) : bool :=
  closes t
  || (TokenType_eqb (type t) KEYWORD
      && ((value t =? "author") || (value t =? "branch"))).

(** From [r] the lexer hands out tokens none of which satisfies [stops] and
    then reports the end of the stream, leaving the reader [r']. *)
Inductive ends_avoiding (stops : Token -> bool)
  : BufferReader -> BufferReader -> Prop :=
| avoiding_end (r r' : BufferReader) :
    Lexer.nextToken r = (Return None, r') -> ends_avoiding stops r r'
| avoiding_token (r r1 r' : BufferReader) (t : Token) :
    Lexer.nextToken r = (Return (Some t), r1) ->
    stops t = false ->
    ends_avoiding stops r1 r' ->
    ends_avoiding stops r r'.

(** From [r] the lexer hands out tokens none of which satisfies [stops] and
    then a CLOSE_BRACE, after which the reader is [r']. *)
Inductive closes_avoiding (stops : Token -> bool)
  : BufferReader -> BufferReader -> Prop :=
| avoiding_close (r r' : BufferReader) (t : Token) :
    Lexer.nextToken r = (Return (Some t), r') ->
    closes t = true ->
    closes_avoiding stops r r'
| avoiding_more (r r1 r' : BufferReader) (t : Token) :
    Lexer.nextToken r = (Return (Some t), r1) ->
    stops t = false ->
    closes_avoiding stops r1 r' ->
    closes_avoiding stops r r'.

(** The stream ends before any CLOSE_BRACE. *)
Definition ends_unclosed : BufferReader -> BufferReader -> Prop :=
  ends_avoiding closes.

(** The cursor lies inside the buffer or at its end. *)
Definition in_buffer (r : BufferReader) : Prop :=
  0 <= _pos r <= source_length r.

(** The leading run of characters that are not whitespace, and what
    follows it. *)
Fixpoint take_word (s : string) : string :=
  match s with
  | String c s' => if is_space c then EmptyString else String c (take_word s')
  | EmptyString => EmptyString
  end.

Fixpoint skip_word (s : string) : string :=
  match s with
  | String c s' => if is_space c then s else skip_word s'
  | EmptyString => EmptyString
  end.

Fixpoint no_space (s : string) : bool :=
  match s with
  | String c s' => negb (is_space c) && no_space s'
  | EmptyString => true
  end.

(** The characters on which [nextToken()] does not start a word. *)
Definition starts_word (c : ascii) : bool :=
  negb (is_space c || Ascii.eqb c "#" || Ascii.eqb c "034"
        || Ascii.eqb c "{" || Ascii.eqb c "}").

(** The token [keywordOrIdentifier()] makes of a word. *)
Definition word_token (w : string) : Token :=
  {| type := if JS.includes keywords w then KEYWORD else IDENTIFIER;
     value := w |}.

(** What the union type [Token] promises of a token the lexer hands out. *)
Definition well_formed (t : Token) : Prop :=
  match type t with
  | KEYWORD => In (value t) keywords
  | IDENTIFIER =>
      ~ In (value t) keywords /\ value t <> EmptyString
      /\ no_space (value t) = true
  | STRING => True
  | OPEN_BRACE => value t = "{"
  | CLOSE_BRACE => value t = "}"
  | COMMENT => False
  end.

Definition well_formed_or_none (token : option Token) : Prop :=
  match token with
  | Some t => well_formed t
  | None => True
  end.

(** The text holds no double quote. *)
Fixpoint no_quote (s : string) : bool :=
  match s with
  | EmptyString => true
  | String c s' => negb (Ascii.eqb c "034") && no_quote s'
  end.

(** The body of a literal that holds neither backslash nor quote, as the
    lexer keeps it: every carriage return is dropped, and so are the tabs
    and spaces that follow a kept newline or space ([collapsing]). *)
Fixpoint plain_value (collapsing : bool) (s : string) : string :=
  match s with
  | EmptyString => EmptyString
  | String c s' =>
      if collapsing && is_hspace c then plain_value true s'
      else if Ascii.eqb c "013" then plain_value false s'
      else String c (plain_value (Ascii.eqb c "010" || Ascii.eqb c " ") s')
  end.

(** The two errors a literal that is never closed ends in. *)
Definition unterminated (e : exn) : Prop :=
  e = Error "End of source" \/ e = RangeError "k lies outside source buffer".

(** A run that returns, returns a value satisfying [P]. *)
Definition yields {A} (P : A -> Prop) (res : outcome A * BufferReader) : Prop :=
  match res with
  | (Return a, _) => P a
  | _ => True
  end.

(** From [r] the lexer hands out tokens that are no CLOSE_BRACE and then a
    CLOSE_BRACE, after which the reader is [r']. *)
Inductive closes_after : BufferReader -> BufferReader -> Prop :=
| closes_now (r r' : BufferReader) (t : Token) :
    Lexer.nextToken r = (Return (Some t), r') ->
    closes t = true ->
    closes_after r r'
| closes_later (r r1 r' : BufferReader) (t : Token) :
    Lexer.nextToken r = (Return (Some t), r1) ->
    closes t = false ->
    closes_after r1 r' ->
    closes_after r r'.

(** [authors.forEach(a => scene.addAuthor(a))] *)
Definition attach (authors : list Author) (scene : Scene) : Scene :=
  fold_left (fun s a => addAuthor a s) authors scene.

(** A run that returns, returns at the end of the buffer of [r]. *)
Definition returns_at_end {A} (r : BufferReader)
  (res : outcome A * BufferReader) : Prop :=
  match res with
  | (Return _, r') => r' = at_end r
  | _ => True
  end.

(** Every branch is filed under its own id. *)
Definition keyed_by_id (scene : Scene) : Prop :=
  forall (id : string) (b : Branch),
    _branches scene !! id = Some b -> branch_id b = id.

(** While its body is read a scene has its id, no author yet, and every
    branch under its own id. *)
Definition being_built (id : string) (scene : Scene) : Prop :=
  scene_id scene = id /\ _authors scene = [] /\ keyed_by_id scene.

(** What holds of every scene the parser builds. *)
Definition scene_ok (scene : Scene) : Prop :=
  List.NoDup (author_ids scene) /\ keyed_by_id scene.

(** * Properties *)

(** ** The reader *)

Section ReaderFacts.

Variable r : BufferReader.
Variable k : Z.

Lemma peek_in_bounds :
  _pos r + k <= source_length r ->
  peek k r = (Return (JS.substring (_source r) (_pos r) (_pos r + k)), r).
Proof.
  intros Hle. unfold peek.
  destruct (Z.gtb_spec (_pos r + k) (source_length r)) as [Hgt | _]; [lia | reflexivity].
Qed.

Lemma peek_out_of_bounds :
  _pos r + k > source_length r ->
  peek k r = (Throw (RangeError "k lies outside source buffer"), r).
Proof.
  intros Hgt. unfold peek.
  destruct (Z.gtb_spec (_pos r + k) (source_length r)) as [_ | Hle]; [reflexivity | lia].
Qed.

Lemma peek_keeps_reader : snd (peek k r) = r.
Proof. unfold peek. destruct (_ >? _); reflexivity. Qed.

(** [read] hands back the promise [peek] made at the cursor it was called
    with, and moves the cursor whatever that promise holds. *)
Lemma read_is_peek_then_advance : read k r = (fst (peek k r), advance r k).
Proof.
  unfold read, advance.
  destruct (peek k r) as [s r1] eqn:E.
  pose proof peek_keeps_reader as Hk. rewrite E in Hk. simpl in Hk. subst r1.
  reflexivity.
Qed.

End ReaderFacts.

(** [String.substring] yields as many characters as asked when they exist. *)
Lemma substring_length (s : string) :
  forall n m : nat,
    (n + m <= String.length s)%nat ->
    String.length (String.substring n m s) = m.
Proof.
  induction s as [| c s IH]; intros n m H; simpl in *.
  - destruct n, m; simpl; lia.
  - destruct n as [| n].
    + destruct m as [| m]; simpl; [reflexivity |].
      f_equal. apply (IH 0%nat m). lia.
    + apply IH. lia.
Qed.

(** Inside the buffer the JavaScript slice is the plain one. *)
Lemma js_substring_inside (s : string) (p k : Z) :
  0 <= p -> 0 <= k -> p + k <= Z.of_nat (String.length s) ->
  JS.substring s p (p + k) = String.substring (Z.to_nat p) (Z.to_nat k) s.
Proof.
  intros Hp Hk Hle. unfold JS.substring, JS.clamp.
  rewrite (Z.min_l p) by lia. rewrite (Z.min_l (p + k)) by lia.
  rewrite (Z.max_r 0 p) by lia. rewrite (Z.max_r 0 (p + k)) by lia.
  rewrite (Z.min_l p (p + k)) by lia. rewrite (Z.max_r p (p + k)) by lia.
  f_equal. f_equal. lia.
Qed.

(** C4: whenever [p + k] does not exceed the length of the buffer,
    [read(k)] returns the slice [peek(k)] returns in that state, taken at
    the cursor [p] as it was before the call, and leaves the cursor at
    [p + k]; for a cursor [p] and a width [k] that are not negative, that
    slice is exactly the [k] characters that start at position [p]. *)
Theorem read_returns_slice_at_cursor (r : BufferReader) (k : Z) :
  _pos r + k <= source_length r ->
  let slice := JS.substring (_source r) (_pos r) (_pos r + k) in
  read k r = (Return slice, advance r k)
  /\ fst (peek k r) = Return slice
  /\ _pos (snd (read k r)) = _pos r + k
  /\ (0 <= _pos r -> 0 <= k ->
      slice = String.substring (Z.to_nat (_pos r)) (Z.to_nat k) (_source r)
      /\ Z.of_nat (String.length slice) = k).
Proof.
  intros Hle slice.
  rewrite read_is_peek_then_advance, (peek_in_bounds r k Hle). simpl.
  repeat split.
  - unfold slice. now apply js_substring_inside.
  - unfold slice. unfold source_length in Hle.
    rewrite js_substring_inside by assumption.
    rewrite substring_length; lia.
Qed.

Lemma read_returns_slice_at_cursor_witness :
  read 3 {| _source := "scene s"; _pos := 2 |}
  = (Return "ene", {| _source := "scene s"; _pos := 5 |}).
Proof.
  apply (read_returns_slice_at_cursor {| _source := "scene s"; _pos := 2 |} 3).
  vm_compute. congruence.
Defined.

(** C5: when [p + k] is past the end of the buffer, [read(k)] fails with the
    bounds error and the cursor has moved by [k] all the same, so that
    [isEOF()] holds afterwards.  The cursor, the width and their sum are
    safe integers, where the addition of the code is the one of the
    integers. *)
Theorem read_out_of_bounds_moves_cursor (r : BufferReader) (k : Z) :
  safe_integer (_pos r) -> safe_integer k -> safe_integer (_pos r + k) ->
  _pos r + k > source_length r ->
  read k r = (Throw (RangeError "k lies outside source buffer"), advance r k)
  /\ _pos (snd (read k r)) = _pos r + k
  /\ isEOF (snd (read k r)) = true.
Proof.
  intros _ _ _ Hgt.
  rewrite read_is_peek_then_advance, peek_out_of_bounds by assumption.
  simpl. repeat split.
  unfold isEOF, source_length, advance in *. simpl.
  apply Z.geb_le. lia.
Qed.

Lemma read_out_of_bounds_moves_cursor_witness :
  read 2 {| _source := "abc"; _pos := 2 |}
  = (Throw (RangeError "k lies outside source buffer"),
     {| _source := "abc"; _pos := 4 |}).
Proof.
  apply (read_out_of_bounds_moves_cursor {| _source := "abc"; _pos := 2 |} 2);
    vm_compute; try split; congruence.
Defined.

(** C8: [peek(k)] leaves the reader as it found it, for every [k], and a
    second [peek(k)] right after the first gives the same outcome; for an
    in-bounds [k] that outcome is one and the same string. *)
Theorem peek_does_not_move_cursor (r : BufferReader) (k : Z) :
  snd (peek k r) = r
  /\ _pos (snd (peek k r)) = _pos r
  /\ fst (peek k (snd (peek k r))) = fst (peek k r)
  /\ (_pos r + k <= source_length r ->
      exists s, fst (peek k r) = Return s
                /\ fst (peek k (snd (peek k r))) = Return s).
Proof.
  pose proof (peek_keeps_reader r k) as Hk.
  rewrite Hk. repeat split.
  intros Hle. rewrite (peek_in_bounds r k Hle). simpl. eauto.
Qed.

Lemma peek_does_not_move_cursor_witness :
  exists s, fst (peek 2 {| _source := "abc"; _pos := 1 |}) = Return s
            /\ fst (peek 2 (snd (peek 2 {| _source := "abc"; _pos := 1 |}))) = Return s.
Proof.
  apply (peek_does_not_move_cursor {| _source := "abc"; _pos := 1 |} 2).
  vm_compute. congruence.
Defined.

(** C9: whenever [position + k] exceeds the length of the buffer, [peek(k)]
    fails with the bounds error; no string, short or empty, is returned. *)
Theorem peek_past_end_is_range_error (r : BufferReader) (k : Z) :
  _pos r + k > source_length r ->
  peek k r = (Throw (RangeError "k lies outside source buffer"), r)
  /\ forall s, fst (peek k r) <> Return s.
Proof.
  intros Hgt. rewrite (peek_out_of_bounds r k Hgt). split; [reflexivity |].
  intros s. simpl. discriminate.
Qed.

Lemma peek_past_end_is_range_error_witness :
  peek 4 (newBufferReader "abc")
  = (Throw (RangeError "k lies outside source buffer"), newBufferReader "abc").
Proof.
  apply (peek_past_end_is_range_error (newBufferReader "abc") 4).
  vm_compute. reflexivity.
Defined.

(** ** The scene model *)

Section FindFacts.

Context {A : Type} (p : A -> bool).

Lemma find_app_some (l l' : list A) (x : A) :
  List.find p l = Some x -> List.find p (l ++ l') = Some x.
Proof.
  induction l as [| y l IH]; simpl; [discriminate |].
  destruct (p y); [trivial | exact IH].
Qed.

Lemma find_snoc_hit (l : list A) (x : A) :
  p x = true -> List.find p (l ++ [x]) <> None.
Proof.
  intros Hx. induction l as [| y l IH]; simpl.
  - rewrite Hx. discriminate.
  - destruct (p y); [discriminate | exact IH].
Qed.

Lemma find_hit_of_member (l : list A) (x : A) :
  In x l -> p x = true -> List.find p l <> None.
Proof.
  intros Hin Hx Hnone.
  pose proof (List.find_none p l Hnone x Hin) as Hf. congruence.
Qed.

End FindFacts.

Lemma addAuthor_present (scene : Scene) (author a : Author) :
  In a (_authors scene) -> author_id a = author_id author ->
  addAuthor author scene = scene.
Proof.
  intros Hin Hid. unfold addAuthor.
  destruct (List.find _ (_authors scene)) eqn:E; [reflexivity |].
  exfalso. revert E.
  apply (find_hit_of_member _ _ a Hin). now apply String.eqb_eq.
Qed.

Lemma addAuthor_twice (scene : Scene) (author : Author) :
  addAuthor author (addAuthor author scene) = addAuthor author scene.
Proof.
  assert (Hstep : forall s' : Scene,
             List.find (fun a => author_id a =? author_id author) (_authors s') <> None ->
             addAuthor author s' = s').
  { intros s' H. unfold addAuthor. destruct (List.find _ (_authors s')); congruence. }
  apply Hstep. unfold addAuthor.
  destruct (List.find _ (_authors scene)) as [a |] eqn:E.
  - rewrite E. discriminate.
  - simpl. apply find_snoc_hit. apply String.eqb_refl.
Qed.

(** The same two facts for the second definition of [Scene]. *)
Lemma Rich_addAuthor_present (scene : Rich.Scene) (author a : Author) :
  In a (Rich._authors scene) -> author_id a = author_id author ->
  Rich.addAuthor author scene = scene.
Proof.
  intros Hin Hid. unfold Rich.addAuthor.
  destruct (List.find _ (Rich._authors scene)) eqn:E; [reflexivity |].
  exfalso. revert E.
  apply (find_hit_of_member _ _ a Hin). now apply String.eqb_eq.
Qed.

Lemma Rich_addAuthor_twice (scene : Rich.Scene) (author : Author) :
  Rich.addAuthor author (Rich.addAuthor author scene) = Rich.addAuthor author scene.
Proof.
  assert (Hstep : forall s' : Rich.Scene,
             List.find (fun a => author_id a =? author_id author) (Rich._authors s') <> None ->
             Rich.addAuthor author s' = s').
  { intros s' H. unfold Rich.addAuthor. destruct (List.find _ (Rich._authors s')); congruence. }
  apply Hstep. unfold Rich.addAuthor.
  destruct (List.find _ (Rich._authors scene)) as [a |] eqn:E.
  - rewrite E. discriminate.
  - simpl. apply find_snoc_hit. apply String.eqb_refl.
Qed.

(** C10: [addAuthor] is idempotent per author id.  With an author whose id
    the scene already holds, the scene (its author array included) is
    returned unchanged and nothing is thrown; hence adding the same author
    twice is adding it once. *)
Theorem addAuthor_idempotent_per_id (scene : Scene) (author : Author) :
  (In (author_id author) (author_ids scene) ->
   addAuthor author scene = scene
   /\ _authors (addAuthor author scene) = _authors scene)
  /\ addAuthor author (addAuthor author scene) = addAuthor author scene.
Proof.
  split; [| apply addAuthor_twice].
  intros Hin. unfold author_ids in Hin.
  apply in_map_iff in Hin. destruct Hin as (a & Hid & Ha).
  rewrite (addAuthor_present scene author a Ha Hid). split; reflexivity.
Qed.

Lemma addAuthor_idempotent_per_id_witness :
  let scene := addAuthor (mkAuthor "b") (addAuthor (mkAuthor "a") (newScene "s")) in
  addAuthor (mkAuthor "a") scene = scene
  /\ _authors (addAuthor (mkAuthor "a") scene) = _authors scene.
Proof.
  intros scene.
  apply (addAuthor_idempotent_per_id scene (mkAuthor "a")).
  vm_compute. tauto.
Defined.

(** ** The reader over its unread text *)

Lemma length_append (a b : string) :
  String.length (a ++ b) = (String.length a + String.length b)%nat.
Proof. induction a as [| c a IH]; simpl; [reflexivity | now rewrite IH]. Qed.

Lemma substring_one_after (a : string) (c : ascii) (b : string) :
  String.substring (String.length a) 1 (a ++ String c b) = chr c.
Proof.
  induction a as [| d a IH]; simpl.
  - destruct b; reflexivity.
  - exact IH.
Qed.

Lemma append_cons_assoc (a : string) (c : ascii) (b : string) :
  a ++ String c b = (a ++ chr c) ++ b.
Proof.
  induction a as [| d a IH]; [reflexivity |].
  change (String d (a ++ String c b) = String d ((a ++ chr c) ++ b)).
  now f_equal.
Qed.

Lemma chr_eqb (c d : ascii) : (chr c =? chr d) = Ascii.eqb c d.
Proof. unfold chr. simpl. destruct (Ascii.eqb c d); reflexivity. Qed.

Section Unread.

Variable r : BufferReader.

Lemma unread_nil_isEOF : unread_is r "" -> isEOF r = true.
Proof.
  intros (a & Hs & Hp). unfold isEOF, source_length.
  rewrite Hs, Hp, length_append. simpl. apply Z.geb_le. lia.
Qed.

Lemma unread_nil_at_end : unread_is r "" -> r = at_end r.
Proof.
  intros (a & Hs & Hp). destruct r as [src pos]. unfold at_end, source_length.
  simpl in *. subst. rewrite length_append. simpl. f_equal. lia.
Qed.

Lemma unread_gas (rest : string) :
  unread_is r rest -> gas r = S (String.length rest).
Proof.
  intros (a & Hs & Hp). unfold gas, source_length.
  rewrite Hs, Hp, length_append. f_equal. lia.
Qed.

Variable c : ascii.
Variable rest : string.
Hypothesis Hr : unread_is r (String c rest).

Lemma unread_cons_isEOF : isEOF r = false.
Proof.
  destruct Hr as (a & Hs & Hp). unfold isEOF, source_length.
  rewrite Hs, Hp, length_append. simpl.
  destruct (Z.geb_spec (Z.of_nat (String.length a))
              (Z.of_nat (String.length a + S (String.length rest)))); [lia | reflexivity].
Qed.

Lemma unread_cons_peek : peek 1 r = (Return (chr c), r).
Proof.
  destruct Hr as (a & Hs & Hp).
  assert (Hle : _pos r + 1 <= source_length r).
  { unfold source_length. rewrite Hs, Hp, length_append. simpl. lia. }
  rewrite peek_in_bounds by exact Hle.
  unfold source_length in Hle.
  rewrite js_substring_inside by lia.
  rewrite Hs, Hp, Nat2Z.id. change (Z.to_nat 1) with 1%nat.
  now rewrite substring_one_after.
Qed.

Lemma unread_cons_advance : unread_is (advance r 1) rest.
Proof.
  destruct Hr as (a & Hs & Hp). exists (a ++ chr c). unfold advance. simpl. split.
  - rewrite Hs. apply append_cons_assoc.
  - rewrite Hp, length_append. simpl. lia.
Qed.

Lemma unread_cons_read : read 1 r = (Return (chr c), advance r 1).
Proof. now rewrite read_is_peek_then_advance, unread_cons_peek. Qed.

End Unread.

Lemma unread_fresh (source : string) : unread_is (newBufferReader source) source.
Proof. exists "". split; reflexivity. Qed.

Lemma advance_source (r : BufferReader) (k : Z) : _source (advance r k) = _source r.
Proof. reflexivity. Qed.

(** ** The lexer on whitespace and comments *)

Ltac char_tests :=
  unfold Lexer.isWhitespace, TAB, LF, CR, SPACE, DQUOTE, BACKSLASH, HASH, LBRACE, RBRACE;
  rewrite ?chr_eqb.

Ltac at_char H :=
  rewrite ?(unread_cons_isEOF _ _ _ H), ?(unread_cons_peek _ _ _ H),
    ?(unread_cons_read _ _ _ H).

Lemma eatWhitespace_loop_skips (rest : string) :
  forall (fuel : nat) (r : BufferReader),
    unread_is r rest -> (String.length rest < fuel)%nat ->
    returns_at (Lexer.eatWhitespace_loop fuel) r tt (skip_hspace rest).
Proof.
  induction rest as [| c rest IH]; intros fuel r Hr Hfuel;
    destruct fuel as [| fuel]; simpl in Hfuel; try lia;
    unfold returns_at; cbn [Lexer.eatWhitespace_loop]; unfold bind, atEOF.
  - rewrite (unread_nil_isEOF r Hr). exists r. auto.
  - at_char Hr. char_tests. simpl. fold (is_hspace c).
    destruct (is_hspace c).
    + at_char Hr.
      destruct (IH fuel (advance r 1)) as (r' & Hrun & Hrest & Hsrc);
        [eapply unread_cons_advance; eassumption | lia |].
      exists r'. auto.
    + exists r. auto.
Qed.

Lemma eatWhitespace_skips (r : BufferReader) (rest : string) :
  unread_is r rest -> returns_at Lexer.eatWhitespace r tt (skip_hspace rest).
Proof.
  intros Hr. unfold Lexer.eatWhitespace, with_gas.
  apply eatWhitespace_loop_skips; [assumption |].
  rewrite (unread_gas r rest Hr). lia.
Qed.

Lemma comment_loop_skips (rest : string) :
  forall (fuel : nat) (r : BufferReader) (s : string),
    unread_is r rest -> (String.length rest < fuel)%nat ->
    exists s', returns_at (Lexer.comment_loop fuel s) r s' (skip_line rest).
Proof.
  induction rest as [| c rest IH]; intros fuel r s Hr Hfuel;
    destruct fuel as [| fuel]; simpl in Hfuel; try lia;
    unfold returns_at; cbn [Lexer.comment_loop]; unfold bind, atEOF.
  - rewrite (unread_nil_isEOF r Hr). exists s, r. auto.
  - at_char Hr. char_tests. simpl. fold (is_newline c).
    destruct (is_newline c).
    + exists s, r. auto.
    + at_char Hr.
      destruct (IH fuel (advance r 1) (s ++ chr c)) as (s' & r' & Hrun & Hrest & Hsrc);
        [eapply unread_cons_advance; eassumption | lia |].
      exists s', r'. auto.
Qed.

Lemma skip_line_skip_hspace (s : string) : skip_line (skip_hspace s) = skip_line s.
Proof.
  induction s as [| c s IH]; [reflexivity |]. simpl.
  destruct (is_hspace c) eqn:Eh.
  - rewrite IH.
    assert (Hn : is_newline c = false).
    { unfold is_hspace, is_newline in *.
      destruct (Ascii.eqb_spec c "009"); [subst; reflexivity |].
      destruct (Ascii.eqb_spec c " "); [subst; reflexivity | discriminate]. }
    now rewrite Hn.
  - reflexivity.
Qed.

Lemma comment_skips_line (r : BufferReader) (rest : string) :
  unread_is r (String "#" rest) ->
  exists s, returns_at Lexer.comment r {| type := COMMENT; value := s |} (skip_line rest).
Proof.
  intros Hr. unfold returns_at, Lexer.comment, bind.
  rewrite (unread_cons_peek _ _ _ Hr). char_tests.
  rewrite Ascii.eqb_refl. cbn [negb].
  rewrite (unread_cons_read _ _ _ Hr).
  destruct (eatWhitespace_skips (advance r 1) rest) as (r1 & Hrun1 & Hrest1 & Hsrc1);
    [eapply unread_cons_advance; eassumption |].
  rewrite Hrun1. unfold with_gas.
  destruct (comment_loop_skips (skip_hspace rest) (gas r1) r1 "")
    as (s & r2 & Hrun2 & Hrest2 & Hsrc2);
    [assumption | rewrite (unread_gas r1 _ Hrest1); lia |].
  rewrite Hrun2. exists s, r2. unfold ret.
  rewrite skip_line_skip_hspace in Hrest2.
  rewrite advance_source in Hsrc1.
  repeat split; [assumption | congruence].
Qed.

Lemma skip_line_length (s : string) :
  (String.length (skip_line s) <= String.length s)%nat.
Proof.
  induction s as [| c s IH]; simpl; [lia |].
  destruct (is_newline c); simpl; lia.
Qed.

Lemma is_newline_is_space (c : ascii) : is_newline c = true -> is_space c = true.
Proof.
  unfold is_newline, is_space.
  destruct (Ascii.eqb c "013"), (Ascii.eqb c "010"), (Ascii.eqb c " "),
    (Ascii.eqb c "009"); simpl; congruence.
Qed.

Lemma blank_after_comment (s : string) :
  blank_from true s = true -> blank_from false (skip_line s) = true.
Proof.
  induction s as [| c s IH]; [reflexivity |]. simpl.
  destruct (is_newline c) eqn:En; simpl.
  - intros H. now rewrite (is_newline_is_space c En).
  - exact IH.
Qed.

Lemma is_space_cases (c : ascii) :
  is_space c = true ->
  c = " "%char \/ c = "009"%char \/ c = "013"%char \/ c = "010"%char.
Proof.
  unfold is_space.
  destruct (Ascii.eqb_spec c " "); [auto |].
  destruct (Ascii.eqb_spec c "009"); [auto |].
  destruct (Ascii.eqb_spec c "013"); [auto |].
  destruct (Ascii.eqb_spec c "010"); [auto | discriminate].
Qed.

Lemma at_end_same_source (r r' : BufferReader) :
  _source r' = _source r -> at_end r' = at_end r.
Proof. intros H. unfold at_end, source_length. now rewrite H. Qed.

(** On a blank text the loop of [nextToken()] runs to the end of the buffer
    and returns [undefined], whatever budget above the text length it got. *)
Lemma nextToken_loop_blanks (n : nat) :
  forall (rest : string) (fuel : nat) (r : BufferReader),
    (String.length rest <= n)%nat ->
    unread_is r rest -> blank_from false rest = true ->
    (String.length rest < fuel)%nat ->
    Lexer.nextToken_loop fuel r = (Return None, at_end r).
Proof.
  induction n as [| n IH]; intros rest fuel r Hn Hr Hblank Hfuel;
    destruct rest as [| c rest]; destruct fuel as [| fuel];
    simpl in Hn, Hfuel; try lia;
    cbn [Lexer.nextToken_loop]; unfold bind, atEOF.
  - rewrite (unread_nil_isEOF r Hr). unfold ret. f_equal. now apply unread_nil_at_end.
  - rewrite (unread_nil_isEOF r Hr). unfold ret. f_equal. now apply unread_nil_at_end.
  - rewrite (unread_cons_isEOF _ _ _ Hr), (unread_cons_peek _ _ _ Hr). char_tests.
    simpl in Hblank.
    destruct (Ascii.eqb_spec c "#") as [-> | Hhash].
    + simpl in Hblank.
      destruct (comment_skips_line r rest Hr) as (s & r2 & Hrun & Hrest & Hsrc).
      rewrite Hrun.
      rewrite (IH (skip_line rest) fuel r2); try assumption.
      * now rewrite (at_end_same_source r r2).
      * pose proof (skip_line_length rest). lia.
      * now apply blank_after_comment.
      * pose proof (skip_line_length rest). lia.
    + destruct (is_space c) eqn:Es; [| discriminate].
      assert (Hstep : Lexer.nextToken_loop fuel (advance r 1) = (Return None, at_end r)).
      { rewrite (IH rest fuel (advance r 1)); try assumption; try lia.
        - now rewrite (at_end_same_source r (advance r 1)).
        - eapply unread_cons_advance; eassumption. }
      pose proof (unread_cons_read _ _ _ Hr) as Hread.
      destruct (is_space_cases c Es) as [-> | [-> | [-> | ->]]];
        cbn [Ascii.eqb Bool.eqb orb]; rewrite Hread; exact Hstep.
Qed.

Lemma nextToken_blanks (r : BufferReader) (rest : string) :
  unread_is r rest -> blank_from false rest = true ->
  Lexer.nextToken r = (Return None, at_end r).
Proof.
  intros Hr Hblank. unfold Lexer.nextToken, with_gas.
  apply (nextToken_loop_blanks (String.length rest) rest); auto.
  rewrite (unread_gas r rest Hr). lia.
Qed.

Lemma unread_at_end (r : BufferReader) : unread_is (at_end r) "".
Proof.
  exists (_source r). unfold at_end, source_length. simpl. split; [| reflexivity].
  induction (_source r) as [| c s IH]; [reflexivity |].
  change (String c s = String c (s ++ "")). now f_equal.
Qed.

Lemma at_end_at_end (r : BufferReader) : at_end (at_end r) = at_end r.
Proof. reflexivity. Qed.

Lemma after_calls_blanks (source : string) (n : nat) :
  only_blanks source = true ->
  after_calls (S n) (newBufferReader source) = at_end (newBufferReader source).
Proof.
  intros Hblank. induction n as [| n IH].
  - unfold after_calls. simpl.
    now rewrite (nextToken_blanks _ source (unread_fresh source) Hblank).
  - change (after_calls (S (S n)) (newBufferReader source))
      with (snd (Lexer.nextToken (after_calls (S n) (newBufferReader source)))).
    rewrite IH.
    now rewrite (nextToken_blanks _ "" (unread_at_end _) eq_refl).
Qed.

(** C6: on a source made of whitespace and comments only, every call of
    [nextToken()] in a row returns the end-of-stream marker [undefined]:
    none throws, none runs forever, none yields a token.  The first call
    already consumes the whole text. *)
Theorem nextToken_on_blanks_is_end_of_stream (source : string) (n : nat) :
  only_blanks source = true ->
  Lexer.nextToken (after_calls n (newBufferReader source))
  = (Return None, at_end (newBufferReader source)).
Proof.
  intros Hblank. destruct n as [| n].
  - exact (nextToken_blanks _ source (unread_fresh source) Hblank).
  - rewrite (after_calls_blanks source n Hblank).
    exact (nextToken_blanks _ "" (unread_at_end _) eq_refl).
Qed.

Lemma nextToken_on_blanks_is_end_of_stream_witness :
  let source := "  # a scene" ++ CR ++ LF ++ TAB ++ "#" ++ LF ++ "# scene s {" in
  Lexer.nextToken (after_calls 2 (newBufferReader source))
  = (Return None, at_end (newBufferReader source)).
Proof.
  intros source.
  apply (nextToken_on_blanks_is_end_of_stream source 2).
  vm_compute. reflexivity.
Defined.

(** ** The budget of the model is never exhausted *)

Section Settles.

Context {A : Type}.

Lemma settles_returns_at (m : M A) (r : BufferReader) (a : A) (rest : string)
  (post : A -> string -> Prop) :
  returns_at m r a rest -> post a rest -> settles r post (m r).
Proof.
  intros (r' & Hrun & Hrest & Hsrc) Hpost. rewrite Hrun. simpl. eauto.
Qed.

Lemma settles_weaken (r : BufferReader) (post post' : A -> string -> Prop)
  (res : outcome A * BufferReader) :
  (forall a rest, post a rest -> post' a rest) ->
  settles r post res -> settles r post' res.
Proof.
  intros Himp. destruct res as [[a | e |] r']; simpl; auto.
  intros (rest & Hrest & Hsrc & Hpost). eauto.
Qed.

Lemma settles_same_source (r r1 : BufferReader) (post : A -> string -> Prop)
  (res : outcome A * BufferReader) :
  _source r1 = _source r -> settles r1 post res -> settles r post res.
Proof.
  intros Hsrc. destruct res as [[a | e |] r']; simpl; auto.
  intros (rest & Hrest & Hsrc' & Hpost). exists rest. repeat split; congruence.
Qed.

Lemma settles_not_out_of_fuel (r : BufferReader) (post : A -> string -> Prop)
  (res : outcome A * BufferReader) :
  settles r post res -> fst res <> OutOfFuel.
Proof. destruct res as [[a | e |] r']; simpl; [discriminate | discriminate | tauto]. Qed.

End Settles.

Lemma settles_bind {A B} (m : M A) (f : A -> M B) (r : BufferReader)
  (post : A -> string -> Prop) (post' : B -> string -> Prop) :
  settles r post (m r) ->
  (forall a r' rest,
      unread_is r' rest -> _source r' = _source r -> post a rest ->
      settles r' post' (f a r')) ->
  settles r post' (bind m f r).
Proof.
  intros Hm Hf. unfold bind. destruct (m r) as [[a | e |] r']; simpl in *; auto.
  destruct Hm as (rest & Hrest & Hsrc & Hpost).
  apply (settles_same_source r r'); auto.
  exact (Hf a r' rest Hrest Hsrc Hpost).
Qed.

Lemma unread_nil_read (r : BufferReader) :
  unread_is r "" ->
  read 1 r = (Throw (RangeError "k lies outside source buffer"), advance r 1).
Proof.
  intros (a & Hs & Hp).
  rewrite read_is_peek_then_advance, peek_out_of_bounds; [reflexivity |].
  unfold source_length. rewrite Hs, Hp, length_append. simpl. lia.
Qed.

Lemma skip_hspace_length (s : string) :
  (String.length (skip_hspace s) <= String.length s)%nat.
Proof.
  induction s as [| c s IH]; simpl; [lia |].
  destruct (is_hspace c); simpl; lia.
Qed.

Lemma keywordOrIdentifier_loop_settles (rest : string) :
  forall (fuel : nat) (r : BufferReader) (s : string),
    unread_is r rest -> (String.length rest < fuel)%nat ->
    settles r (not_longer rest) (Lexer.keywordOrIdentifier_loop fuel s r).
Proof.
  induction rest as [| c rest IH]; intros fuel r s Hr Hfuel;
    destruct fuel as [| fuel]; simpl in Hfuel; try lia;
    cbn [Lexer.keywordOrIdentifier_loop]; unfold bind, atEOF.
  - rewrite (unread_nil_isEOF r Hr). simpl. exists "". unfold not_longer. auto.
  - rewrite (unread_cons_isEOF _ _ _ Hr), (unread_cons_peek _ _ _ Hr).
    destruct (Lexer.isWhitespace (chr c)).
    + simpl. exists (String c rest). unfold not_longer. auto.
    + rewrite (unread_cons_read _ _ _ Hr).
      apply (settles_same_source r (advance r 1)); [reflexivity |].
      eapply settles_weaken; [| apply IH].
      * unfold not_longer. simpl. intros _ rest'. lia.
      * eapply unread_cons_advance; eassumption.
      * lia.
Qed.

(** Called on a character that is not whitespace, [keywordOrIdentifier()]
    consumes it. *)
Lemma keywordOrIdentifier_settles (r : BufferReader) (c : ascii) (rest : string) :
  unread_is r (String c rest) -> Lexer.isWhitespace (chr c) = false ->
  settles r (not_longer rest) (Lexer.keywordOrIdentifier r).
Proof.
  intros Hr Hws. unfold Lexer.keywordOrIdentifier.
  apply settles_bind with (post := not_longer rest).
  - unfold with_gas. rewrite (unread_gas r _ Hr).
    cbn [Lexer.keywordOrIdentifier_loop]. unfold bind, atEOF.
    rewrite (unread_cons_isEOF _ _ _ Hr), (unread_cons_peek _ _ _ Hr), Hws.
    rewrite (unread_cons_read _ _ _ Hr).
    apply (settles_same_source r (advance r 1)); [reflexivity |].
    apply keywordOrIdentifier_loop_settles.
    + eapply unread_cons_advance; eassumption.
    + simpl. lia.
  - intros s r' rest' Hrest' Hsrc Hpost.
    destruct (JS.includes keywords s); simpl; exists rest'; auto.
Qed.

Lemma stringLiteral_loop_settles (fuel : nat) :
  forall (rest : string) (r : BufferReader) (s : string),
    unread_is r rest -> (String.length rest < fuel)%nat ->
    settles r (not_longer rest) (Lexer.stringLiteral_loop fuel s r).
Proof.
  induction fuel as [| fuel IH]; intros rest r s Hr Hfuel; [lia |].
  cbn [Lexer.stringLiteral_loop]. unfold bind at 1, atEOF.
  destruct rest as [| c rest].
  { rewrite (unread_nil_isEOF r Hr). exact I. }
  rewrite (unread_cons_isEOF _ _ _ Hr). unfold bind at 1.
  rewrite (unread_cons_peek _ _ _ Hr).
  pose proof (unread_cons_advance _ _ _ Hr) as Hr1.
  pose proof (unread_cons_read _ _ _ Hr) as Hread.
  simpl in Hfuel. char_tests.
  destruct (Ascii.eqb_spec c "\") as [-> | Hesc].
  - (* escape: the backslash, the escaped character, then one more *)
    unfold bind. rewrite Hread.
    destruct rest as [| d rest]; [now rewrite (unread_nil_read _ Hr1) |].
    rewrite (unread_cons_read _ _ _ Hr1).
    pose proof (unread_cons_advance _ _ _ Hr1) as Hr2.
    cbn [ret Ascii.eqb Bool.eqb orb andb].
    destruct rest as [| e rest]; [now rewrite (unread_nil_read _ Hr2) |].
    rewrite (unread_cons_read _ _ _ Hr2).
    pose proof (unread_cons_advance _ _ _ Hr2) as Hr3.
    apply (settles_same_source r (advance (advance (advance r 1) 1) 1));
      [reflexivity |].
    eapply settles_weaken; [| apply (IH rest); [exact Hr3 | simpl in Hfuel; lia]].
    unfold not_longer. simpl. intros _ rest'. lia.
  - unfold bind at 1. cbn [ret].
    destruct (Ascii.eqb c "034").
    { unfold bind. rewrite Hread. simpl. exists rest.
      unfold not_longer. simpl. auto. }
    destruct (Ascii.eqb c "013").
    { unfold bind. rewrite Hread.
      apply (settles_same_source r (advance r 1)); [reflexivity |].
      eapply settles_weaken; [| apply (IH rest); [exact Hr1 | lia]].
      unfold not_longer. simpl. intros _ rest'. lia. }
    unfold bind at 1. rewrite Hread.
    destruct (Ascii.eqb c "010" || Ascii.eqb c " ").
    + destruct (eatWhitespace_skips _ _ Hr1) as (r2 & Hrun & Hr2 & Hsrc).
      unfold bind. rewrite Hrun.
      apply (settles_same_source r r2); [exact Hsrc |].
      eapply settles_weaken; [| apply (IH (skip_hspace rest)); [exact Hr2 |]].
      * unfold not_longer. simpl. intros _ rest'.
        pose proof (skip_hspace_length rest). lia.
      * pose proof (skip_hspace_length rest). lia.
    + unfold bind, ret.
      apply (settles_same_source r (advance r 1)); [reflexivity |].
      eapply settles_weaken; [| apply (IH rest); [exact Hr1 | lia]].
      unfold not_longer. simpl. intros _ rest'. lia.
Qed.

Lemma stringLiteral_settles (r : BufferReader) (rest : string) :
  unread_is r (String "034" rest) ->
  settles r (not_longer rest) (Lexer.stringLiteral r).
Proof.
  intros Hr. unfold Lexer.stringLiteral, bind.
  rewrite (unread_cons_peek _ _ _ Hr). char_tests.
  rewrite Ascii.eqb_refl. cbn [negb].
  rewrite (unread_cons_read _ _ _ Hr). unfold with_gas.
  pose proof (unread_cons_advance _ _ _ Hr) as Hr1.
  apply (settles_same_source r (advance r 1)); [reflexivity |].
  apply stringLiteral_loop_settles; [exact Hr1 |].
  rewrite (unread_gas _ _ Hr1). lia.
Qed.

Lemma token_taken_after (before rest : string) (c : ascii) (token : option Token)
  (rest' : string) :
  (String.length rest <= String.length before)%nat ->
  token_taken rest token rest' -> token_taken (String c before) token rest'.
Proof. unfold token_taken. destruct token; simpl; [lia | auto]. Qed.

(** The loop of [nextToken()] settles: a token costs at least one
    character, and [undefined] comes only at the end of the buffer. *)
Lemma nextToken_loop_settles (fuel : nat) :
  forall (rest : string) (r : BufferReader),
    unread_is r rest -> (String.length rest < fuel)%nat ->
    settles r (token_taken rest) (Lexer.nextToken_loop fuel r).
Proof.
  induction fuel as [| fuel IH]; intros rest r Hr Hfuel; [lia |].
  cbn [Lexer.nextToken_loop]. unfold bind at 1, atEOF.
  destruct rest as [| c rest].
  { rewrite (unread_nil_isEOF r Hr). simpl. exists "". simpl. auto. }
  rewrite (unread_cons_isEOF _ _ _ Hr). unfold bind at 1.
  rewrite (unread_cons_peek _ _ _ Hr).
  pose proof (unread_cons_advance _ _ _ Hr) as Hr1.
  pose proof (unread_cons_read _ _ _ Hr) as Hread.
  simpl in Hfuel. char_tests.
  assert (Hnext : settles r (token_taken (String c rest))
                    (Lexer.nextToken_loop fuel (advance r 1))).
  { apply (settles_same_source r (advance r 1)); [reflexivity |].
    eapply settles_weaken; [| apply (IH rest); [exact Hr1 | lia]].
    intros token rest'. apply token_taken_after. lia. }
  destruct (Ascii.eqb_spec c "#") as [-> | Hhash].
  { destruct (comment_skips_line r rest Hr) as (s & r2 & Hrun & Hr2 & Hsrc).
    unfold bind. rewrite Hrun.
    apply (settles_same_source r r2); [exact Hsrc |].
    pose proof (skip_line_length rest) as Hlen.
    eapply settles_weaken; [| apply (IH (skip_line rest)); [exact Hr2 | lia]].
    intros token rest'. apply token_taken_after. lia. }
  destruct (Ascii.eqb_spec c "034") as [-> | Hquote].
  { apply settles_bind with (post := not_longer rest).
    - now apply stringLiteral_settles.
    - intros t r' rest' Hrest' Hsrc Hpost. simpl. exists rest'.
      repeat split; auto. unfold not_longer in Hpost. simpl. lia. }
  destruct (Ascii.eqb c "{").
  { unfold bind. rewrite Hread. simpl. exists rest. repeat split; auto. }
  destruct (Ascii.eqb c "}").
  { unfold bind. rewrite Hread. simpl. exists rest. repeat split; auto. }
  destruct (Ascii.eqb c " ") eqn:Esp; cbn [orb];
    [unfold bind; rewrite Hread; exact Hnext |].
  destruct (Ascii.eqb c "009") eqn:Etab; cbn [orb];
    [unfold bind; rewrite Hread; exact Hnext |].
  destruct (Ascii.eqb c "013") eqn:Ecr; cbn [orb];
    [unfold bind; rewrite Hread; exact Hnext |].
  destruct (Ascii.eqb c "010") eqn:Elf; cbn [orb];
    [unfold bind; rewrite Hread; exact Hnext |].
  apply settles_bind with (post := not_longer rest).
  - apply (keywordOrIdentifier_settles r c rest Hr).
    char_tests. now rewrite Esp, Etab, Ecr, Elf.
  - intros t r' rest' Hrest' Hsrc Hpost. simpl. exists rest'.
    repeat split; auto. unfold not_longer in Hpost. simpl. lia.
Qed.

Lemma nextToken_settles (r : BufferReader) (rest : string) :
  unread_is r rest -> settles r (token_taken rest) (Lexer.nextToken r).
Proof.
  intros Hr. unfold Lexer.nextToken, with_gas.
  apply nextToken_loop_settles; [exact Hr |].
  rewrite (unread_gas r rest Hr). lia.
Qed.

(** From a cursor inside the buffer [nextToken()] comes back: the budget of
    the model is enough on every source. *)
Lemma nextToken_total (r : BufferReader) (rest : string) :
  unread_is r rest -> fst (Lexer.nextToken r) <> OutOfFuel.
Proof.
  intros Hr. exact (settles_not_out_of_fuel _ _ _ (nextToken_settles r rest Hr)).
Qed.

Ltac next_token_then rest :=
  apply settles_bind with (post := token_taken rest);
  [now apply nextToken_settles |].

Lemma author_loop_settles (fuel : nat) :
  forall (rest : string) (r : BufferReader) (author : Author),
    unread_is r rest -> (String.length rest < fuel)%nat ->
    settles r (not_longer rest) (Parser.author_loop fuel author r).
Proof.
  induction fuel as [| fuel IH]; intros rest r author Hr Hfuel; [lia |].
  cbn [Parser.author_loop]. next_token_then rest.
  intros [t |] r1 rest1 Hr1 Hsrc Htaken; simpl in Htaken; [| exact I].
  destruct (TokenType_eqb (type t) CLOSE_BRACE).
  - simpl. exists rest1. unfold not_longer. repeat split; auto. lia.
  - eapply settles_weaken; [| apply (IH rest1); [exact Hr1 | lia]].
    unfold not_longer. intros _ rest'. lia.
Qed.

Lemma branch_loop_settles (fuel : nat) :
  forall (rest : string) (r : BufferReader) (branch : Branch) (scene : Scene),
    unread_is r rest -> (String.length rest < fuel)%nat ->
    settles r (not_longer rest) (Parser.branch_loop fuel branch scene r).
Proof.
  induction fuel as [| fuel IH]; intros rest r branch scene Hr Hfuel; [lia |].
  cbn [Parser.branch_loop]. next_token_then rest.
  intros [t |] r1 rest1 Hr1 Hsrc Htaken; simpl in Htaken.
  - destruct (TokenType_eqb (type t) CLOSE_BRACE).
    + simpl. exists rest1. unfold not_longer. repeat split; auto. lia.
    + eapply settles_weaken; [| apply (IH rest1); [exact Hr1 | lia]].
      unfold not_longer. intros _ rest'. lia.
  - subst rest1. simpl. exists "". unfold not_longer. repeat split; auto.
    simpl. lia.
Qed.

Lemma author_settles (r : BufferReader) (rest : string) :
  unread_is r rest -> settles r (not_longer rest) (Parser.author r).
Proof.
  intros Hr. unfold Parser.author. next_token_then rest.
  intros token r1 rest1 Hr1 Hsrc Htaken.
  destruct (Parser.has_type IDENTIFIER token) as [t |] eqn:Et; [| exact I].
  destruct token as [t' |]; [| discriminate]. simpl in Htaken.
  unfold with_gas. rewrite (unread_gas _ _ Hr1).
  eapply settles_weaken; [| apply (author_loop_settles _ rest1); [exact Hr1 | lia]].
  unfold not_longer. intros _ rest'. lia.
Qed.

Lemma branch_settles (r : BufferReader) (rest : string) (scene : Scene) :
  unread_is r rest -> settles r (not_longer rest) (Parser.branch scene r).
Proof.
  intros Hr. unfold Parser.branch. next_token_then rest.
  intros token r1 rest1 Hr1 Hsrc Htaken.
  destruct (Parser.has_type IDENTIFIER token) as [t |] eqn:Et; [| exact I].
  destruct token as [t' |]; [| discriminate]. simpl in Htaken.
  unfold with_gas. rewrite (unread_gas _ _ Hr1).
  eapply settles_weaken; [| apply (branch_loop_settles _ rest1); [exact Hr1 | lia]].
  unfold not_longer. intros _ rest'. lia.
Qed.

Lemma scene_loop_settles (fuel : nat) :
  forall (rest : string) (r : BufferReader) (scene : Scene) (authors : list Author),
    unread_is r rest -> (String.length rest < fuel)%nat ->
    settles r (not_longer rest) (Parser.scene_loop fuel scene authors r).
Proof.
  induction fuel as [| fuel IH]; intros rest r scene authors Hr Hfuel; [lia |].
  cbn [Parser.scene_loop]. next_token_then rest.
  intros [t |] r1 rest1 Hr1 Hsrc Htaken; simpl in Htaken; [| exact I].
  assert (Hagain : forall (r2 : BufferReader) (rest2 : string) scene' authors',
             unread_is r2 rest2 -> not_longer rest1 tt rest2 ->
             settles r2 (not_longer rest) (Parser.scene_loop fuel scene' authors' r2)).
  { intros r2 rest2 scene' authors' Hr2 Hlen. unfold not_longer in Hlen.
    eapply settles_weaken; [| apply (IH rest2); [exact Hr2 | lia]].
    unfold not_longer. intros _ rest'. lia. }
  destruct (TokenType_eqb (type t) KEYWORD && (value t =? "author")).
  { apply settles_bind with (post := not_longer rest1);
      [now apply author_settles |].
    intros a r2 rest2 Hr2 _ Hlen. now apply (Hagain r2 rest2). }
  destruct (TokenType_eqb (type t) KEYWORD && (value t =? "branch")).
  { apply settles_bind with (post := not_longer rest1);
      [now apply branch_settles |].
    intros scene' r2 rest2 Hr2 _ Hlen. now apply (Hagain r2 rest2). }
  destruct (TokenType_eqb (type t) CLOSE_BRACE).
  { simpl. exists rest1. unfold not_longer. repeat split; auto. lia. }
  apply (Hagain r1 rest1); [exact Hr1 |]. unfold not_longer. lia.
Qed.

Lemma scene_settles (r : BufferReader) (rest : string) :
  unread_is r rest -> settles r (not_longer rest) (Parser.scene r).
Proof.
  intros Hr. unfold Parser.scene. next_token_then rest.
  intros token r1 rest1 Hr1 Hsrc1 Htaken1.
  destruct (Parser.has_type IDENTIFIER token) as [t |] eqn:Et; [| exact I].
  destruct token as [t' |]; [| discriminate]. simpl in Htaken1.
  next_token_then rest1.
  intros token2 r2 rest2 Hr2 Hsrc2 Htaken2.
  destruct (Parser.has_type OPEN_BRACE token2) as [t2 |] eqn:Et2; [| exact I].
  destruct token2 as [t2' |]; [| discriminate]. simpl in Htaken2.
  unfold with_gas. rewrite (unread_gas _ _ Hr2).
  eapply settles_weaken; [| apply (scene_loop_settles _ rest2); [exact Hr2 | lia]].
  unfold not_longer. intros _ rest'. lia.
Qed.

Lemma parse_loop_settles (fuel : nat) :
  forall (rest : string) (r : BufferReader) (scenes : list Scene)
         (authors : list Author),
    unread_is r rest -> (String.length rest < fuel)%nat ->
    settles r (not_longer rest) (Parser.parse_loop fuel scenes authors r).
Proof.
  induction fuel as [| fuel IH]; intros rest r scenes authors Hr Hfuel; [lia |].
  cbn [Parser.parse_loop]. next_token_then rest.
  intros [t |] r1 rest1 Hr1 Hsrc Htaken; simpl in Htaken.
  - assert (Hagain : forall (r2 : BufferReader) (rest2 : string) scenes' authors',
               unread_is r2 rest2 -> not_longer rest1 tt rest2 ->
               settles r2 (not_longer rest)
                 (Parser.parse_loop fuel scenes' authors' r2)).
    { intros r2 rest2 scenes' authors' Hr2 Hlen. unfold not_longer in Hlen.
      eapply settles_weaken; [| apply (IH rest2); [exact Hr2 | lia]].
      unfold not_longer. intros _ rest'. lia. }
    destruct (type t); try exact I.
    destruct (value t =? "author").
    { apply settles_bind with (post := not_longer rest1);
        [now apply author_settles |].
      intros a r2 rest2 Hr2 _ Hlen. now apply (Hagain r2 rest2). }
    destruct (value t =? "scene"); [| exact I].
    apply settles_bind with (post := not_longer rest1);
      [now apply scene_settles |].
    intros s r2 rest2 Hr2 _ Hlen. now apply (Hagain r2 rest2).
  - subst rest1. simpl. exists "". unfold not_longer. repeat split; auto.
    simpl. lia.
Qed.

(** [parse()] comes back on every source, with a document or an error: the
    budget of the model is never what ends a parse. *)
Lemma parse_total (source : string) : parse_source source <> OutOfFuel.
Proof.
  unfold parse_source, Parser.parse, with_gas.
  apply (settles_not_out_of_fuel (newBufferReader source) (not_longer source)).
  apply parse_loop_settles; [apply unread_fresh |].
  rewrite (unread_gas _ _ (unread_fresh source)). lia.
Qed.

(** ** The parser: one turn of each block loop *)

Section LoopTurns.

Variables (r r' : BufferReader) (fuel : nat).

(** The lexer is exhausted. *)
Section AtEndOfStream.

Hypothesis Hend : Lexer.nextToken r = (Return None, r').

Lemma author_loop_eof (author : Author) :
  Parser.author_loop (S fuel) author r
  = (Throw (SyntaxError "Expected CLOSE_BRACE but reached EOF"), r').
Proof. cbn [Parser.author_loop]. unfold bind. now rewrite Hend. Qed.

Lemma scene_loop_eof (scene : Scene) (authors : list Author) :
  Parser.scene_loop (S fuel) scene authors r
  = (Throw (SyntaxError "Expected CLOSE_BRACE but reached EOF"), r').
Proof. cbn [Parser.scene_loop]. unfold bind. now rewrite Hend. Qed.

(** [branch] has no [throw] after its loop: it returns, scene untouched. *)
Lemma branch_loop_eof (branch : Branch) (scene : Scene) :
  Parser.branch_loop (S fuel) branch scene r = (Return scene, r').
Proof. cbn [Parser.branch_loop]. unfold bind. now rewrite Hend. Qed.

End AtEndOfStream.

(** The lexer hands out a token [t]. *)
Section AtToken.

Variable t : Token.
Hypothesis Htok : Lexer.nextToken r = (Return (Some t), r').

Lemma author_loop_skip (author : Author) :
  type t <> CLOSE_BRACE ->
  Parser.author_loop (S fuel) author r = Parser.author_loop fuel author r'.
Proof.
  intros Hty. cbn [Parser.author_loop]. unfold bind. rewrite Htok.
  destruct (type t); simpl; congruence.
Qed.

Lemma branch_loop_skip (branch : Branch) (scene : Scene) :
  type t <> CLOSE_BRACE ->
  Parser.branch_loop (S fuel) branch scene r = Parser.branch_loop fuel branch scene r'.
Proof.
  intros Hty. cbn [Parser.branch_loop]. unfold bind. rewrite Htok.
  destruct (type t); simpl; congruence.
Qed.

Lemma scene_loop_skip (scene : Scene) (authors : list Author) :
  ~ (type t = KEYWORD /\ value t = "author") ->
  ~ (type t = KEYWORD /\ value t = "branch") ->
  type t <> CLOSE_BRACE ->
  Parser.scene_loop (S fuel) scene authors r = Parser.scene_loop fuel scene authors r'.
Proof.
  intros Hauthor Hbranch Hclose.
  cbn [Parser.scene_loop]. unfold bind. rewrite Htok.
  destruct (String.eqb_spec (value t) "author") as [Ea | Ea];
    destruct (String.eqb_spec (value t) "branch") as [Eb | Eb];
    destruct (type t); simpl; try reflexivity; tauto.
Qed.

End AtToken.

End LoopTurns.


(** A scene whose body holds an identifier, a string, an opening brace and
    the keywords [jump] and [scene]: all dropped, the scene comes out empty. *)
Example scene_body_of_dropped_tokens :
  parse_source ("scene s { x " ++ quoted "y" ++ " { jump scene }")
  = Return [newScene "s"].
Proof. vm_compute. reflexivity. Qed.

(** ** The parser: blocks cut short by the end of the stream *)

Lemma token_leaves_less (r r1 : BufferReader) (rest : string) (t : Token) :
  unread_is r rest -> Lexer.nextToken r = (Return (Some t), r1) ->
  exists rest1, unread_is r1 rest1 /\ (String.length rest1 < String.length rest)%nat.
Proof.
  intros Hr Htok. pose proof (nextToken_settles r rest Hr) as Hs.
  rewrite Htok in Hs. destruct Hs as (rest1 & Hr1 & _ & Hlen). eauto.
Qed.

Lemma closes_false (t : Token) : closes t = false -> type t <> CLOSE_BRACE.
Proof. unfold closes. destruct (type t); simpl; congruence. Qed.

Lemma scene_item_false (t : Token) :
  scene_item t = false ->
  ~ (type t = KEYWORD /\ value t = "author")
  /\ ~ (type t = KEYWORD /\ value t = "branch")
  /\ type t <> CLOSE_BRACE.
Proof.
  unfold scene_item, closes.
  destruct (String.eqb_spec (value t) "author");
    destruct (String.eqb_spec (value t) "branch");
    destruct (type t); simpl; intros H; try discriminate;
    intuition congruence.
Qed.

(** When the stream ends before a CLOSE_BRACE, the body scan of [author()]
    throws the unexpected-EOF error. *)
Lemma author_loop_unclosed (r r' : BufferReader) :
  ends_unclosed r r' ->
  forall (rest : string) (fuel : nat) (author : Author),
    unread_is r rest -> (String.length rest < fuel)%nat ->
    Parser.author_loop fuel author r
    = (Throw (SyntaxError "Expected CLOSE_BRACE but reached EOF"), r').
Proof.
  induction 1 as [r r' Hend | r r1 r' t Htok Hty _ IH];
    intros rest fuel author Hr Hfuel; (destruct fuel as [| fuel]; [lia |]).
  - now apply author_loop_eof.
  - rewrite (author_loop_skip r r1 fuel t Htok author (closes_false t Hty)).
    destruct (token_leaves_less r r1 rest t Hr Htok) as (rest1 & Hr1 & Hlen).
    apply (IH rest1); [exact Hr1 | lia].
Qed.

(** In the same situation the body scan of [branch()] returns, with the
    scene it was given and nothing thrown. *)
Lemma branch_loop_unclosed (r r' : BufferReader) :
  ends_unclosed r r' ->
  forall (rest : string) (fuel : nat) (branch : Branch) (scene : Scene),
    unread_is r rest -> (String.length rest < fuel)%nat ->
    Parser.branch_loop fuel branch scene r = (Return scene, r').
Proof.
  induction 1 as [r r' Hend | r r1 r' t Htok Hty _ IH];
    intros rest fuel branch scene Hr Hfuel; (destruct fuel as [| fuel]; [lia |]).
  - now apply branch_loop_eof.
  - rewrite (branch_loop_skip r r1 fuel t Htok branch scene (closes_false t Hty)).
    destruct (token_leaves_less r r1 rest t Hr Htok) as (rest1 & Hr1 & Hlen).
    apply (IH rest1); [exact Hr1 | lia].
Qed.

(** So does the body of a scene that holds no author, no branch and no
    closing brace. *)
Lemma scene_loop_unclosed (r r' : BufferReader) :
  ends_avoiding scene_item r r' ->
  forall (rest : string) (fuel : nat) (scene : Scene) (authors : list Author),
    unread_is r rest -> (String.length rest < fuel)%nat ->
    Parser.scene_loop fuel scene authors r
    = (Throw (SyntaxError "Expected CLOSE_BRACE but reached EOF"), r').
Proof.
  induction 1 as [r r' Hend | r r1 r' t Htok Hty _ IH];
    intros rest fuel scene authors Hr Hfuel; (destruct fuel as [| fuel]; [lia |]).
  - now apply scene_loop_eof.
  - destruct (scene_item_false t Hty) as (Ha & Hb & Hc).
    rewrite (scene_loop_skip r r1 fuel t Htok scene authors Ha Hb Hc).
    destruct (token_leaves_less r r1 rest t Hr Htok) as (rest1 & Hr1 & Hlen).
    apply (IH rest1); [exact Hr1 | lia].
Qed.

Section UnclosedBlock.

Variables (r r1 r' : BufferReader) (rest : string) (t : Token).
Hypothesis Hr : unread_is r rest.
Hypothesis Hid : Lexer.nextToken r = (Return (Some t), r1).
Hypothesis Hty : type t = IDENTIFIER.
Hypothesis Hopen : ends_unclosed r1 r'.

Lemma author_unclosed_throws :
  Parser.author r
  = (Throw (SyntaxError "Expected CLOSE_BRACE but reached EOF"), r').
Proof.
  unfold Parser.author, bind. rewrite Hid. simpl. rewrite Hty. simpl.
  destruct (token_leaves_less r r1 rest t Hr Hid) as (rest1 & Hr1 & Hlen).
  unfold with_gas. apply (author_loop_unclosed r1 r' Hopen rest1); [exact Hr1 |].
  rewrite (unread_gas _ _ Hr1). lia.
Qed.

Lemma branch_unclosed_returns (scene : Scene) :
  Parser.branch scene r = (Return scene, r').
Proof.
  unfold Parser.branch, bind. rewrite Hid. simpl. rewrite Hty. simpl.
  destruct (token_leaves_less r r1 rest t Hr Hid) as (rest1 & Hr1 & Hlen).
  unfold with_gas. apply (branch_loop_unclosed r1 r' Hopen rest1); [exact Hr1 |].
  rewrite (unread_gas _ _ Hr1). lia.
Qed.

End UnclosedBlock.

(** A body of tokens the scene does not act upon, closed by a brace: the
    loop returns the scene with the pending authors attached. *)
Lemma scene_loop_closes (r r' : BufferReader) :
  closes_avoiding scene_item r r' ->
  forall (rest : string) (fuel : nat) (scene : Scene) (authors : list Author),
    unread_is r rest -> (String.length rest < fuel)%nat ->
    Parser.scene_loop fuel scene authors r = (Return (attach authors scene), r').
Proof.
  induction 1 as [r r' t Htok Hty | r r1 r' t Htok Hty _ IH];
    intros rest fuel scene authors Hr Hfuel; (destruct fuel as [| fuel]; [lia |]).
  - cbn [Parser.scene_loop]. unfold bind. rewrite Htok.
    unfold closes in Hty. destruct (type t); try discriminate. reflexivity.
  - destruct (scene_item_false t Hty) as (Ha & Hb & Hc).
    rewrite (scene_loop_skip r r1 fuel t Htok scene authors Ha Hb Hc).
    destruct (token_leaves_less r r1 rest t Hr Htok) as (rest1 & Hr1 & Hlen).
    apply (IH rest1); [exact Hr1 | lia].
Qed.

Lemma dropped_kinds (t : Token) :
  type t = IDENTIFIER \/ type t = STRING \/ type t = OPEN_BRACE
  \/ (type t = KEYWORD /\ value t <> "author" /\ value t <> "branch") ->
  scene_item t = false.
Proof.
  unfold scene_item, closes.
  intros [H | [H | [H | (H & Ha & Hb)]]]; rewrite H; simpl; try reflexivity.
  apply String.eqb_neq in Ha, Hb. now rewrite Ha, Hb.
Qed.

(** C7: in the body of a scene, the tokens that are neither KEYWORD
    [author], nor KEYWORD [branch], nor CLOSE_BRACE (every IDENTIFIER, STRING
    and OPEN_BRACE token, and the other keywords) are read and dropped, and
    the loop goes on.  From any state of the loop, a run of such tokens
    followed by a closing brace makes the loop return the scene it had, with
    the pending authors attached and nothing else changed, the reader
    standing right after that brace; a run of such tokens up to the end of
    the stream makes it throw the unexpected-EOF error, which is the only
    diagnostic; and after one such token the loop is the loop resumed from
    the reader state behind that token, with the scene and the pending
    authors it had. *)
Theorem scene_body_drops_other_tokens
  (r r' : BufferReader) (rest : string) (fuel : nat)
  (scene : Scene) (authors : list Author) :
  unread_is r rest -> (String.length rest < fuel)%nat ->
  (closes_avoiding scene_item r r' ->
   Parser.scene_loop fuel scene authors r = (Return (attach authors scene), r'))
  /\ (ends_avoiding scene_item r r' ->
      Parser.scene_loop fuel scene authors r
      = (Throw (SyntaxError "Expected CLOSE_BRACE but reached EOF"), r'))
  /\ (forall t : Token,
        Lexer.nextToken r = (Return (Some t), r') -> scene_item t = false ->
        Parser.scene_loop fuel scene authors r
        = Parser.scene_loop (Nat.pred fuel) scene authors r')
  /\ (forall t : Token,
        type t = IDENTIFIER \/ type t = STRING \/ type t = OPEN_BRACE
        \/ (type t = KEYWORD /\ value t <> "author" /\ value t <> "branch") ->
        scene_item t = false).
Proof.
  intros Hr Hfuel. repeat split.
  - intros Hclose. now apply (scene_loop_closes r r' Hclose rest).
  - intros Hend. now apply (scene_loop_unclosed r r' Hend rest).
  - intros t Htok Hdrop. destruct fuel as [| fuel]; [lia |].
    destruct (scene_item_false t Hdrop) as (Ha & Hb & Hc).
    now apply (scene_loop_skip r r' fuel t Htok).
  - apply dropped_kinds.
Qed.

Lemma scene_body_drops_other_tokens_witness :
  let source := quoted "hello" ++ " x { jump }" in
  Parser.scene_loop 19 (newScene "s") [mkAuthor "a"] (newBufferReader source)
  = (Return (attach [mkAuthor "a"] (newScene "s")),
     {| _source := source; _pos := 18 |}).
Proof.
  intros source.
  destruct (scene_body_drops_other_tokens (newBufferReader source)
              {| _source := source; _pos := 18 |} source 19
              (newScene "s") [mkAuthor "a"]) as (Hclose & _).
  - apply unread_fresh.
  - vm_compute. lia.
  - apply Hclose.
    apply (avoiding_more _ _ {| _source := source; _pos := 7 |} _
             {| type := STRING; value := "hello" |});
      [vm_compute; reflexivity | reflexivity |].
    apply (avoiding_more _ _ {| _source := source; _pos := 9 |} _
             {| type := IDENTIFIER; value := "x" |});
      [vm_compute; reflexivity | reflexivity |].
    apply (avoiding_more _ _ {| _source := source; _pos := 11 |} _
             {| type := OPEN_BRACE; value := "{" |});
      [vm_compute; reflexivity | reflexivity |].
    apply (avoiding_more _ _ {| _source := source; _pos := 16 |} _
             {| type := KEYWORD; value := "jump" |});
      [vm_compute; reflexivity | reflexivity |].
    apply (avoiding_close _ _ _ {| type := CLOSE_BRACE; value := "}" |});
      [vm_compute; reflexivity | reflexivity].
Defined.

(** C2: an [author] block and a [scene] block whose closing brace never
    comes raise the unexpected-EOF syntax error; [branch] does not: on an
    unterminated body its loop ends, the method returns without an error and
    the branch is not registered.  Inside [scene()] the error then comes
    from the scene loop, not from [branch()]. *)
Theorem branch_unterminated_returns_without_error :
  Parser.branch (newScene "s") (newBufferReader "b {")
  = (Return (newScene "s"), {| _source := "b {"; _pos := 3 |})
  /\ fst (Parser.author (newBufferReader "a {"))
     = Throw (SyntaxError "Expected CLOSE_BRACE but reached EOF")
  /\ fst (Parser.scene (newBufferReader "s {"))
     = Throw (SyntaxError "Expected CLOSE_BRACE but reached EOF")
  /\ parse_source "scene s { branch b {"
     = Throw (SyntaxError "Expected CLOSE_BRACE but reached EOF").
Proof. vm_compute. repeat split. Qed.

(** ** The parser: the example document *)

Lemma nested_example_outcome :
  parse_source nested_example = Throw (Error "Unexpected token type 'CLOSE_BRACE'").
Proof. vm_compute. reflexivity. Qed.

(** C1, as stated, fails: parsing the nested example does not yield the
    one-scene document. *)
Lemma nested_example_is_not_parsed :
  ~ one_scene_s_a_b (parse_source nested_example).
Proof.
  intros (scene & Hres & _). rewrite nested_example_outcome in Hres. discriminate.
Qed.

(** C1, amended: the nested example is rejected.  The body scan of the
    nested author ends at the first closing brace, the scene closes at the
    second one with author [a] alone and no branch (this is what parsing the
    text without its last brace yields), and the third brace is refused at
    top level.  With the author block closed before the branch, parsing
    yields exactly one scene [s], holding exactly one author [a] (the
    broadcast of the top-level [a] adds no second entry) and exactly one
    branch [b]. *)
Theorem example_document_parses_when_author_is_closed :
  parse_source nested_example = Throw (Error "Unexpected token type 'CLOSE_BRACE'")
  /\ parse_source "author a {} scene s { author a { branch b { } }"
     = Return [ {| scene_id := "s"; _authors := [mkAuthor "a"]; _branches := ∅ |} ]
  /\ one_scene_s_a_b (parse_source flat_example).
Proof.
  split; [exact nested_example_outcome |].
  split; [vm_compute; reflexivity |].
  eexists. split; [vm_compute; reflexivity |].
  repeat split.
Qed.

(** ** String literals *)

Lemma append_nil_r (s : string) : s ++ "" = s.
Proof.
  induction s as [| c s IH]; [reflexivity |].
  change (String c (s ++ "") = String c s). now f_equal.
Qed.

Lemma literal_value_collapsing (s : string) :
  literal_value true s = literal_value false (skip_hspace s).
Proof.
  induction s as [| c s IH]; [reflexivity |].
  cbn [literal_value skip_hspace].
  destruct (is_hspace c) eqn:Eh; cbn [andb].
  - exact IH.
  - cbn [literal_value]. now rewrite Eh.
Qed.

Lemma no_backslash_skip_hspace (s : string) :
  no_backslash s = true -> no_backslash (skip_hspace s) = true.
Proof.
  induction s as [| c s IH]; [reflexivity |]. cbn [skip_hspace].
  destruct (is_hspace c); [| trivial].
  cbn [no_backslash]. intros H. apply andb_prop in H. now apply IH.
Qed.

(** Without escapes the loop of [stringLiteral()] computes the value the
    specification words, appended to what it had accumulated. *)
Lemma stringLiteral_loop_plain (fuel : nat) :
  forall (text : string) (r : BufferReader) (s : string),
    no_backslash text = true ->
    unread_is r text -> (String.length text < fuel)%nat ->
    fst (Lexer.stringLiteral_loop fuel s r)
    = match literal_value false text with
      | Some v => Return {| type := STRING; value := s ++ v |}
      | None => Throw (Error "End of source")
      end.
Proof.
  induction fuel as [| fuel IH]; intros text r s Hplain Hr Hfuel; [lia |].
  cbn [Lexer.stringLiteral_loop]. unfold bind at 1, atEOF.
  destruct text as [| c text].
  { now rewrite (unread_nil_isEOF r Hr). }
  rewrite (unread_cons_isEOF _ _ _ Hr). unfold bind at 1.
  rewrite (unread_cons_peek _ _ _ Hr).
  pose proof (unread_cons_advance _ _ _ Hr) as Hr1.
  pose proof (unread_cons_read _ _ _ Hr) as Hread.
  simpl in Hfuel. cbn [no_backslash] in Hplain.
  apply andb_prop in Hplain. destruct Hplain as [Hc Hplain].
  apply negb_true_iff in Hc.
  char_tests. cbn [literal_value andb]. rewrite Hc.
  unfold bind at 1. cbn [ret].
  destruct (Ascii.eqb c "034").
  { unfold bind. rewrite Hread. simpl. now rewrite append_nil_r. }
  destruct (Ascii.eqb c "013").
  { unfold bind. rewrite Hread. apply (IH text); [assumption | exact Hr1 | lia]. }
  unfold bind at 1. rewrite Hread.
  destruct (Ascii.eqb c "010" || Ascii.eqb c " ").
  - destruct (eatWhitespace_skips _ _ Hr1) as (r2 & Hrun & Hr2 & Hsrc).
    unfold bind. rewrite Hrun.
    pose proof (skip_hspace_length text) as Hlen.
    rewrite (IH (skip_hspace text) r2 (s ++ chr c));
      [| now apply no_backslash_skip_hspace | exact Hr2 | lia].
    rewrite literal_value_collapsing.
    destruct (literal_value false (skip_hspace text)) as [v |]; simpl;
      [now rewrite <- append_cons_assoc | reflexivity].
  - unfold bind, ret.
    rewrite (IH text (advance r 1) (s ++ chr c)); [| assumption | exact Hr1 | lia].
    destruct (literal_value false text) as [v |]; simpl;
      [now rewrite <- append_cons_assoc | reflexivity].
Qed.

(** On every literal without a backslash [nextToken()] yields the STRING
    token of the value the specification words, or the end-of-source error
    when the literal is not closed: the escape branch is the one place where
    the lexer leaves that reading. *)
Lemma plain_literal_token (text : string) :
  no_backslash text = true ->
  first_token (DQUOTE ++ text) = literal_token (literal_value false text).
Proof.
  intros Hplain. unfold first_token, Lexer.nextToken, with_gas.
  pose proof (unread_fresh (DQUOTE ++ text)) as Hr.
  change (DQUOTE ++ text) with (String "034" text) in *.
  rewrite (unread_gas _ _ Hr).
  cbn [Lexer.nextToken_loop]. unfold bind at 1, atEOF.
  rewrite (unread_cons_isEOF _ _ _ Hr). unfold bind at 1.
  rewrite (unread_cons_peek _ _ _ Hr). char_tests.
  cbn [Ascii.eqb Bool.eqb andb].
  unfold bind at 1, Lexer.stringLiteral. unfold bind at 1.
  rewrite (unread_cons_peek _ _ _ Hr). char_tests.
  cbn [Ascii.eqb Bool.eqb andb negb]. unfold bind at 1.
  rewrite (unread_cons_read _ _ _ Hr). unfold with_gas.
  pose proof (unread_cons_advance _ _ _ Hr) as Hr1.
  pose proof (stringLiteral_loop_plain (gas (advance (newBufferReader (String "034" text)) 1))
                text _ "" Hplain Hr1) as Hloop.
  rewrite (unread_gas _ _ Hr1) in Hloop. specialize (Hloop ltac:(lia)).
  rewrite (unread_gas _ _ Hr1).
  destruct (literal_value false text) as [v |];
    [change ("" ++ v) with v in Hloop |];
    destruct (Lexer.stringLiteral_loop _ "" _) as [[t | e |] r'];
    unfold ret; simpl in Hloop |- *; congruence.
Qed.

(** C3: the escape branch of [stringLiteral()] appends the escaped character
    and then, for want of a [continue], appends the next character too
    without looking at it.  The literal of the specification comes out
    right, by luck of what follows its escape; a literal whose escape is
    followed by the closing quote does not: the quote is taken for text and
    the lexer reports the end of the source instead of the value the
    specification gives.  Likewise a space after an escape does not collapse
    the tabs and spaces behind it, and an escape after an escape reads past
    the end of the buffer. *)
Theorem escape_swallows_the_next_character :
  literal_value false ("abc\" ++ DQUOTE ++ "def" ++ DQUOTE)
  = Some ("abc" ++ DQUOTE ++ "def")
  /\ first_token (quoted ("abc\" ++ DQUOTE ++ "def"))
     = Return (Some {| type := STRING; value := "abc" ++ DQUOTE ++ "def" |})
  /\ literal_value false ("a\\" ++ DQUOTE) = Some "a\"
  /\ first_token (quoted "a\\") = Throw (Error "End of source")
  /\ literal_value false ("x\y  z" ++ DQUOTE) = Some "xy z"
  /\ first_token (quoted "x\y  z")
     = Return (Some {| type := STRING; value := "xy  z" |})
  /\ literal_value false ("\\\\" ++ DQUOTE) = Some "\\"
  /\ first_token (quoted "\\\\")
     = Throw (RangeError "k lies outside source buffer").
Proof. vm_compute. repeat split. Qed.

(** * Further properties *)

(** ** The scene model: authors *)

Lemma NoDup_snoc_fresh {A} (l : list A) (x : A) :
  List.NoDup l -> ~ In x l -> List.NoDup (l ++ [x]).
Proof.
  induction l as [| y l IH]; intros Hnd Hx; simpl.
  - constructor; [intros [] | constructor].
  - inversion Hnd as [| ? ? Hy Hl]; subst. constructor.
    + rewrite in_app_iff. simpl. intros [Hin | [-> | []]]; [tauto |].
      apply Hx. now left.
    + apply IH; [assumption |]. intros Hin. apply Hx. now right.
Qed.

Lemma find_id_none (authors : list Author) (author : Author) :
  List.find (fun a => author_id a =? author_id author) authors = None ->
  ~ In (author_id author) (map author_id authors).
Proof.
  intros Hnone Hin. apply in_map_iff in Hin. destruct Hin as (a & Hid & Ha).
  pose proof (List.find_none _ _ Hnone a Ha) as Hf. simpl in Hf.
  apply String.eqb_neq in Hf. congruence.
Qed.

Lemma find_id_some (authors : list Author) (author a : Author) :
  List.find (fun a => author_id a =? author_id author) authors = Some a ->
  In (author_id author) (map author_id authors).
Proof.
  intros Hsome. apply List.find_some in Hsome. destruct Hsome as [Ha Hid].
  apply String.eqb_eq in Hid. rewrite <- Hid. now apply in_map.
Qed.

Lemma addAuthor_ids (author : Author) (scene : Scene) :
  author_ids (addAuthor author scene)
  = match List.find (fun a => author_id a =? author_id author) (_authors scene) with
    | Some _ => author_ids scene
    | None => (author_ids scene ++ [author_id author])%list
    end.
Proof.
  unfold addAuthor, author_ids.
  destruct (List.find _ (_authors scene)); simpl; [reflexivity |].
  now rewrite map_app.
Qed.

Lemma addAuthor_has_id (author : Author) (scene : Scene) :
  In (author_id author) (author_ids (addAuthor author scene)).
Proof.
  rewrite addAuthor_ids.
  destruct (List.find _ (_authors scene)) as [a |] eqn:E.
  - exact (find_id_some _ _ a E).
  - rewrite in_app_iff. right. now left.
Qed.

Lemma addAuthor_keeps_id (author : Author) (scene : Scene) (id : string) :
  In id (author_ids scene) -> In id (author_ids (addAuthor author scene)).
Proof.
  intros Hin. rewrite addAuthor_ids.
  destruct (List.find _ (_authors scene)); [assumption |].
  rewrite in_app_iff. now left.
Qed.

Lemma addAuthor_NoDup (author : Author) (scene : Scene) :
  List.NoDup (author_ids scene) -> List.NoDup (author_ids (addAuthor author scene)).
Proof.
  intros Hnd. rewrite addAuthor_ids.
  destruct (List.find _ (_authors scene)) eqn:E; [assumption |].
  apply NoDup_snoc_fresh; [assumption |]. exact (find_id_none _ _ E).
Qed.

Lemma addAuthor_frame (author : Author) (scene : Scene) :
  scene_id (addAuthor author scene) = scene_id scene
  /\ _branches (addAuthor author scene) = _branches scene.
Proof. unfold addAuthor. destruct (List.find _ (_authors scene)); auto. Qed.

(** X1: [addAuthor] keeps the author ids of a scene pairwise distinct,
    makes the id of the author present, and leaves the authors already
    there in place, in their order; the scene id and the branches are not
    touched. *)
Theorem addAuthor_keeps_ids_distinct (author : Author) (scene : Scene) :
  List.NoDup (author_ids scene) ->
  List.NoDup (author_ids (addAuthor author scene))
  /\ In (author_id author) (author_ids (addAuthor author scene))
  /\ (exists added, _authors (addAuthor author scene) = (_authors scene ++ added)%list)
  /\ scene_id (addAuthor author scene) = scene_id scene
  /\ _branches (addAuthor author scene) = _branches scene.
Proof.
  intros Hnd. split; [now apply addAuthor_NoDup |].
  split; [apply addAuthor_has_id |].
  split; [| apply addAuthor_frame].
  unfold addAuthor. destruct (List.find _ (_authors scene)).
  - exists []. now rewrite app_nil_r.
  - exists [author]. reflexivity.
Qed.

Lemma addAuthor_keeps_ids_distinct_witness :
  let scene := addAuthor (mkAuthor "a") (newScene "s") in
  List.NoDup (author_ids (addAuthor (mkAuthor "b") scene))
  /\ In "b" (author_ids (addAuthor (mkAuthor "b") scene)).
Proof.
  intros scene.
  destruct (addAuthor_keeps_ids_distinct (mkAuthor "b") scene) as (H1 & H2 & _).
  - apply List.NoDup_cons; [intros [] | apply List.NoDup_nil].
  - split; [exact H1 | exact H2].
Defined.

Lemma attach_cons (a : Author) (authors : list Author) (scene : Scene) :
  attach (a :: authors) scene = attach authors (addAuthor a scene).
Proof. reflexivity. Qed.

Lemma attach_frame (authors : list Author) :
  forall scene : Scene,
    scene_id (attach authors scene) = scene_id scene
    /\ _branches (attach authors scene) = _branches scene.
Proof.
  induction authors as [| a l IH]; intros scene; [auto |].
  rewrite attach_cons.
  destruct (IH (addAuthor a scene)) as [H1 H2].
  destruct (addAuthor_frame a scene) as [H3 H4]. split; congruence.
Qed.

Lemma attach_keeps_id (authors : list Author) (id : string) :
  forall scene : Scene,
    In id (author_ids scene) -> In id (author_ids (attach authors scene)).
Proof.
  induction authors as [| a l IH]; intros scene Hin; [assumption |].
  rewrite attach_cons. apply IH. now apply addAuthor_keeps_id.
Qed.

Lemma attach_has_ids (authors : list Author) (a : Author) :
  forall scene : Scene,
    In a authors -> In (author_id a) (author_ids (attach authors scene)).
Proof.
  induction authors as [| b l IH]; intros scene Hin; [destruct Hin |].
  rewrite attach_cons.
  destruct Hin as [-> | Hin]; [| now apply IH].
  apply attach_keeps_id. apply addAuthor_has_id.
Qed.

Lemma attach_NoDup (authors : list Author) :
  forall scene : Scene,
    List.NoDup (author_ids scene) -> List.NoDup (author_ids (attach authors scene)).
Proof.
  induction authors as [| a l IH]; intros scene Hnd; [assumption |].
  rewrite attach_cons. apply IH. now apply addAuthor_NoDup.
Qed.

Lemma broadcast_is_attach (authors : list Author) :
  forall scenes : list Scene,
    Parser.broadcast authors scenes = map (attach authors) scenes.
Proof.
  unfold Parser.broadcast.
  induction authors as [| a l IH]; intros scenes; simpl.
  - now rewrite map_id.
  - rewrite IH, map_map. reflexivity.
Qed.


(** X2: the broadcast that ends [parse()] keeps the scenes, their order,
    their ids and their branches, and leaves every scene holding the id of
    every top-level author. *)
Theorem broadcast_attaches_every_author
  (authors : list Author) (scenes : list Scene) :
  map scene_id (Parser.broadcast authors scenes) = map scene_id scenes
  /\ map _branches (Parser.broadcast authors scenes) = map _branches scenes
  /\ forall (s : Scene) (a : Author),
       In s (Parser.broadcast authors scenes) -> In a authors ->
       In (author_id a) (author_ids s).
Proof.
  rewrite broadcast_is_attach, !map_map. repeat split.
  - apply map_ext. intros s. apply attach_frame.
  - apply map_ext. intros s. apply attach_frame.
  - intros s a Hs Ha. apply in_map_iff in Hs. destruct Hs as (s0 & <- & _).
    now apply attach_has_ids.
Qed.

Lemma broadcast_attaches_every_author_witness :
  In "b" (author_ids {| scene_id := "t"; _authors := [mkAuthor "b"; mkAuthor "a"];
                        _branches := ∅ |}).
Proof.
  destruct (broadcast_attaches_every_author [mkAuthor "a"; mkAuthor "b"]
              [newScene "s"; addAuthor (mkAuthor "b") (newScene "t")])
    as (_ & _ & Hall).
  apply (Hall _ (mkAuthor "b")).
  - right. left. vm_compute. reflexivity.
  - simpl. tauto.
Defined.

(** X3: the broadcast adds no second entry for an id: scenes whose author
    ids are pairwise distinct come out with pairwise distinct author ids,
    also when the top-level list names an author twice. *)
Theorem broadcast_keeps_ids_distinct
  (authors : list Author) (scenes : list Scene) :
  (forall s, In s scenes -> List.NoDup (author_ids s)) ->
  forall s, In s (Parser.broadcast authors scenes) -> List.NoDup (author_ids s).
Proof.
  intros Hnd s Hs. rewrite broadcast_is_attach in Hs.
  apply in_map_iff in Hs. destruct Hs as (s0 & <- & Hs0).
  apply attach_NoDup. now apply Hnd.
Qed.

Lemma broadcast_keeps_ids_distinct_witness :
  List.NoDup (author_ids {| scene_id := "s"; _authors := [mkAuthor "a"];
                            _branches := ∅ |}).
Proof.
  apply (broadcast_keeps_ids_distinct [mkAuthor "a"; mkAuthor "a"]
           [addAuthor (mkAuthor "a") (newScene "s")]).
  - intros s [<- | []]. vm_compute.
    apply List.NoDup_cons; [intros [] | apply List.NoDup_nil].
  - left. vm_compute. reflexivity.
Defined.

(** ** The scene model: branches and blocks *)

(** X4: after [addBranch(branch)] the branch map answers the id of the
    branch with that branch and every other id as before; the number of
    entries grows by one for a new id and not at all for an id already
    there; the authors and the scene id are not touched. *)
Theorem addBranch_then_lookup (branch : Branch) (scene : Scene) :
  _branches (addBranch branch scene) !! branch_id branch = Some branch
  /\ (forall id : string,
        id <> branch_id branch ->
        _branches (addBranch branch scene) !! id = _branches scene !! id)
  /\ size (_branches (addBranch branch scene))
     = match _branches scene !! branch_id branch with
       | Some _ => size (_branches scene)
       | None => S (size (_branches scene))
       end
  /\ _authors (addBranch branch scene) = _authors scene
  /\ scene_id (addBranch branch scene) = scene_id scene.
Proof.
  unfold addBranch. simpl. repeat split.
  - apply lookup_insert_eq.
  - intros id Hne. apply lookup_insert_ne. congruence.
  - destruct (_branches scene !! branch_id branch) as [b |] eqn:E.
    + rewrite <- (insert_delete_id (_branches scene) (branch_id branch) b E) at 2.
      rewrite <- insert_delete_eq.
      now rewrite !map_size_insert_None by apply lookup_delete_eq.
    + now apply map_size_insert_None.
Qed.

Lemma addBranch_then_lookup_witness :
  _branches (addBranch (mkBranch "b") (addBranch (mkBranch "a") (newScene "s")))
    !! "a"
  = _branches (addBranch (mkBranch "a") (newScene "s")) !! "a".
Proof.
  apply (addBranch_then_lookup (mkBranch "b")
           (addBranch (mkBranch "a") (newScene "s"))).
  simpl. discriminate.
Defined.

(** X5: in the model whose branches carry a block, adding a branch under an
    id already in the map replaces the old branch: the lookup gives the new
    one, and the scene is the one obtained by adding the new branch alone. *)
Theorem Rich_addBranch_last_wins (old new : Rich.Branch) (scene : Rich.Scene) :
  Rich.branch_id old = Rich.branch_id new ->
  Rich.addBranch new (Rich.addBranch old scene) = Rich.addBranch new scene
  /\ Rich._branches (Rich.addBranch new (Rich.addBranch old scene))
       !! Rich.branch_id old = Some new.
Proof.
  intros Hid. unfold Rich.addBranch. simpl. rewrite Hid. split.
  - now rewrite insert_insert_eq.
  - apply lookup_insert_eq.
Qed.

Lemma Rich_addBranch_last_wins_witness :
  let old := Rich.mkBranch "b" (Rich.mkBlock [Rich.TextAction "hello"]) in
  let new := Rich.mkBranch "b" (Rich.mkBlock [Rich.JumpAction "c"]) in
  let scene := Rich.mkScene "s" [] ∅ in
  Rich._branches (Rich.addBranch new (Rich.addBranch old scene)) !! "b" = Some new.
Proof.
  intros old new scene.
  apply (Rich_addBranch_last_wins old new scene). reflexivity.
Defined.

(** X6: [append] puts the step at the end of the block: the length grows by
    one, [get] at the old length gives the step, [get] below the old length
    gives what it gave before, and [get] at or past the length of a block
    gives [undefined]. *)
Theorem Block_append_then_get (action : Rich.Step) (b : Rich.Block) :
  Rich.Block_length (Rich.Block_append action b) = S (Rich.Block_length b)
  /\ Rich.Block_get (Rich.Block_length b) (Rich.Block_append action b) = Some action
  /\ (forall n : nat,
        (n < Rich.Block_length b)%nat ->
        Rich.Block_get n (Rich.Block_append action b) = Rich.Block_get n b)
  /\ (forall n : nat,
        (Rich.Block_length b <= n)%nat -> Rich.Block_get n b = None).
Proof.
  unfold Rich.Block_length, Rich.Block_get, Rich.Block_append. simpl.
  repeat split.
  - rewrite length_app. simpl. lia.
  - rewrite lookup_app_r by lia. now rewrite Nat.sub_diag.
  - intros n Hn. now apply lookup_app_l.
  - intros n Hn. now apply lookup_ge_None.
Qed.

Lemma Block_append_then_get_witness :
  Rich.Block_get 0
    (Rich.Block_append (Rich.JumpAction "c") (Rich.mkBlock [Rich.TextAction "hello"]))
  = Rich.Block_get 0 (Rich.mkBlock [Rich.TextAction "hello"]).
Proof.
  apply (Block_append_then_get (Rich.JumpAction "c")
           (Rich.mkBlock [Rich.TextAction "hello"])).
  unfold Rich.Block_length. simpl. lia.
Defined.

(** ** The reader: guards, composition, widths below zero *)

Lemma string_split (s : string) :
  forall n : nat,
    (n <= String.length s)%nat ->
    exists a b : string, s = a ++ b /\ String.length a = n.
Proof.
  induction s as [| c s IH]; intros n Hn; simpl in Hn.
  - exists "", "". split; [reflexivity | simpl; lia].
  - destruct n as [| n].
    + exists "", (String c s). split; reflexivity.
    + destruct (IH n) as (a & b & -> & Hlen); [lia |].
      exists (String c a), b. split; [reflexivity | simpl; lia].
Qed.

Lemma unread_exists (r : BufferReader) :
  in_buffer r -> exists rest, unread_is r rest.
Proof.
  intros [Hlo Hhi]. unfold source_length in Hhi.
  destruct (string_split (_source r) (Z.to_nat (_pos r))) as (a & b & Hs & Hlen);
    [lia |].
  exists b, a. split; [assumption | lia].
Qed.

Lemma unread_in_buffer (r : BufferReader) (rest : string) :
  unread_is r rest ->
  in_buffer r /\ _pos r + Z.of_nat (String.length rest) = source_length r.
Proof.
  intros (a & Hs & Hp). unfold in_buffer, source_length.
  rewrite Hs, Hp, length_append. lia.
Qed.

(** X7: [isEOF()] is the exact guard of [peek()]: when it answers true,
    [peek()] throws the bounds error; when it answers false, [peek()]
    returns, and from a cursor that is not negative it returns one
    character, which [read()] returns too while moving the cursor by one,
    to a place still inside the buffer. *)
Theorem isEOF_guards_peek (r : BufferReader) :
  (isEOF r = true ->
   peek 1 r = (Throw (RangeError "k lies outside source buffer"), r))
  /\ (isEOF r = false ->
      exists s, peek 1 r = (Return s, r)
        /\ (0 <= _pos r ->
            exists c, s = chr c
              /\ read 1 r = (Return (chr c), advance r 1)
              /\ in_buffer (advance r 1))).
Proof.
  unfold isEOF. split; intros Heof.
  - apply peek_out_of_bounds. apply Z.geb_le in Heof. lia.
  - assert (Hlt : _pos r < source_length r).
    { destruct (Z.geb_spec (_pos r) (source_length r)); [discriminate | lia]. }
    rewrite peek_in_bounds by lia. eexists. split; [reflexivity |].
    intros Hpos.
    destruct (unread_exists r) as ([| c rest] & Hr); [unfold in_buffer; lia | |].
    + apply unread_in_buffer in Hr. simpl in Hr. lia.
    + exists c. pose proof (unread_cons_peek _ _ _ Hr) as Hpeek.
      rewrite peek_in_bounds in Hpeek by lia.
      repeat split.
      * congruence.
      * apply (unread_cons_read _ _ _ Hr).
      * apply (unread_in_buffer _ rest), (unread_cons_advance _ _ _ Hr).
      * apply (unread_in_buffer _ rest), (unread_cons_advance _ _ _ Hr).
Qed.

Lemma isEOF_guards_peek_witness :
  exists s, peek 1 {| _source := "ab"; _pos := 1 |}
            = (Return s, {| _source := "ab"; _pos := 1 |})
    /\ (0 <= 1 ->
        exists c, s = chr c
          /\ read 1 {| _source := "ab"; _pos := 1 |}
             = (Return (chr c), advance {| _source := "ab"; _pos := 1 |} 1)
          /\ in_buffer (advance {| _source := "ab"; _pos := 1 |} 1)).
Proof.
  apply (isEOF_guards_peek {| _source := "ab"; _pos := 1 |}). reflexivity.
Defined.

Lemma substring_split (s : string) :
  forall n a b : nat,
    String.substring n (a + b) s
    = String.substring n a s ++ String.substring (n + a) b s.
Proof.
  induction s as [| c s IH]; intros n a b.
  - destruct n, a, b; reflexivity.
  - destruct n as [| n]; [| exact (IH n a b)].
    destruct a as [| a]; [reflexivity |].
    change (String c (String.substring 0 (a + b) s)
            = String c (String.substring 0 a s ++ String.substring (0 + a) b s)).
    f_equal. apply IH.
Qed.

(** X8: two reads in a row are one read of the summed width: inside the
    buffer, [read(j)] followed by [read(k)] returns two strings whose
    concatenation is what [read(j + k)] returns, and leaves the same
    reader. *)
Theorem read_then_read (r : BufferReader) (j k : Z) :
  0 <= _pos r -> 0 <= j -> 0 <= k -> _pos r + j + k <= source_length r ->
  (do a <- read j; do b <- read k; ret (a ++ b)) r = read (j + k) r.
Proof.
  intros Hp Hj Hk Hle. unfold bind, ret.
  rewrite !read_is_peek_then_advance.
  rewrite (peek_in_bounds r j) by lia. simpl.
  rewrite (peek_in_bounds (advance r j) k) by (simpl; unfold source_length in *; simpl; lia).
  rewrite (peek_in_bounds r (j + k)) by lia. simpl.
  unfold advance. simpl. f_equal; [| f_equal; lia].
  f_equal. unfold source_length in Hle.
  rewrite (js_substring_inside _ (_pos r) j) by lia.
  rewrite (js_substring_inside _ (_pos r + j) k) by lia.
  rewrite (js_substring_inside _ (_pos r) (j + k)) by lia.
  rewrite !Z2Nat.inj_add by lia. symmetry. apply substring_split.
Qed.

Lemma read_then_read_witness :
  (do a <- read 2; do b <- read 3; ret (a ++ b)) (newBufferReader "scene s")
  = read (2 + 3) (newBufferReader "scene s").
Proof.
  apply (read_then_read (newBufferReader "scene s") 2 3); vm_compute; congruence.
Defined.

(** X9: the width is not checked for its sign.  With [0 <= j <= p],
    [read(-j)] at cursor [p] throws nothing, returns the [j] characters
    that precede the cursor and moves the cursor back by [j]. *)
Theorem read_negative_steps_back (r : BufferReader) (j : Z) :
  0 <= j <= _pos r -> _pos r <= source_length r ->
  read (- j) r
  = (Return (String.substring (Z.to_nat (_pos r - j)) (Z.to_nat j) (_source r)),
     advance r (- j)).
Proof.
  intros [Hj Hp] Hle.
  rewrite read_is_peek_then_advance, peek_in_bounds by lia. simpl.
  f_equal. f_equal. unfold JS.substring, JS.clamp. unfold source_length in Hle.
  replace (Z.min (_pos r + - j) (Z.of_nat (String.length (_source r))))
    with (_pos r - j) by lia.
  replace (Z.min (_pos r) (Z.of_nat (String.length (_source r))))
    with (_pos r) by lia.
  rewrite (Z.max_r 0 (_pos r)), (Z.max_r 0 (_pos r - j)) by lia.
  rewrite (Z.min_r (_pos r) (_pos r - j)), (Z.max_l (_pos r) (_pos r - j)) by lia.
  f_equal. lia.
Qed.

Lemma read_negative_steps_back_witness :
  read (- 2) {| _source := "scene"; _pos := 3 |}
  = (Return "ce", {| _source := "scene"; _pos := 1 |}).
Proof.
  apply (read_negative_steps_back {| _source := "scene"; _pos := 3 |} 2);
    vm_compute; try split; congruence.
Defined.

(** ** The lexer: words *)

Lemma isWhitespace_is_space (c : ascii) : Lexer.isWhitespace (chr c) = is_space c.
Proof.
  char_tests. unfold is_space.
  destruct (Ascii.eqb c " "), (Ascii.eqb c "009"), (Ascii.eqb c "010"),
    (Ascii.eqb c "013"); reflexivity.
Qed.

Lemma keywordOrIdentifier_loop_word (rest : string) :
  forall (fuel : nat) (r : BufferReader) (s : string),
    unread_is r rest -> (String.length rest < fuel)%nat ->
    returns_at (Lexer.keywordOrIdentifier_loop fuel s) r
      (s ++ take_word rest) (skip_word rest).
Proof.
  induction rest as [| c rest IH]; intros fuel r s Hr Hfuel;
    destruct fuel as [| fuel]; simpl in Hfuel; try lia;
    unfold returns_at; cbn [Lexer.keywordOrIdentifier_loop]; unfold bind, atEOF.
  - rewrite (unread_nil_isEOF r Hr). exists r. simpl. rewrite append_nil_r. auto.
  - rewrite (unread_cons_isEOF _ _ _ Hr), (unread_cons_peek _ _ _ Hr).
    rewrite isWhitespace_is_space. cbn [take_word skip_word].
    destruct (is_space c).
    + exists r. rewrite append_nil_r. unfold ret. auto.
    + rewrite (unread_cons_read _ _ _ Hr).
      destruct (IH fuel (advance r 1) (s ++ chr c)) as (r' & Hrun & Hrest & Hsrc);
        [eapply unread_cons_advance; eassumption | lia |].
      exists r'. rewrite append_cons_assoc. auto.
Qed.

Lemma starts_word_tests (c : ascii) :
  starts_word c = true ->
  is_space c = false /\ Ascii.eqb c "#" = false /\ Ascii.eqb c "034" = false
  /\ Ascii.eqb c "{" = false /\ Ascii.eqb c "}" = false.
Proof.
  unfold starts_word.
  destruct (is_space c), (Ascii.eqb c "#"), (Ascii.eqb c "034"),
    (Ascii.eqb c "{"), (Ascii.eqb c "}"); simpl; intros H;
    try discriminate; repeat split.
Qed.

Lemma is_space_false_tests (c : ascii) :
  is_space c = false ->
  Ascii.eqb c " " = false /\ Ascii.eqb c "009" = false
  /\ Ascii.eqb c "013" = false /\ Ascii.eqb c "010" = false.
Proof.
  unfold is_space.
  destruct (Ascii.eqb c " "), (Ascii.eqb c "009"), (Ascii.eqb c "013"),
    (Ascii.eqb c "010"); simpl; intros H; try discriminate; repeat split.
Qed.

Lemma keywordOrIdentifier_word (r : BufferReader) (c : ascii) (rest : string) :
  unread_is r (String c rest) -> is_space c = false ->
  returns_at Lexer.keywordOrIdentifier r
    (word_token (String c (take_word rest))) (skip_word rest).
Proof.
  intros Hr Hc. unfold returns_at, Lexer.keywordOrIdentifier, bind, with_gas.
  destruct (keywordOrIdentifier_loop_word (String c rest) (gas r) r "" Hr)
    as (r' & Hrun & Hrest & Hsrc); [rewrite (unread_gas _ _ Hr); lia |].
  rewrite Hrun. cbn [take_word skip_word] in *. rewrite Hc in *.
  change ("" ++ String c (take_word rest)) with (String c (take_word rest)).
  exists r'. unfold word_token, ret.
  destruct (JS.includes keywords (String c (take_word rest))); auto.
Qed.

Lemma nextToken_reads_a_word_at (r : BufferReader) (c : ascii) (rest : string) :
  unread_is r (String c rest) -> starts_word c = true ->
  returns_at Lexer.nextToken r
    (Some (word_token (String c (take_word rest)))) (skip_word rest).
Proof.
  intros Hr Hc.
  destruct (starts_word_tests c Hc) as (Hsp & Hh & Hq & Hl & Hrb).
  destruct (is_space_false_tests c Hsp) as (H1 & H2 & H3 & H4).
  destruct (keywordOrIdentifier_word r c rest Hr Hsp) as (r' & Hrun & Hrest & Hsrc).
  unfold returns_at, Lexer.nextToken, with_gas. rewrite (unread_gas _ _ Hr).
  cbn [Lexer.nextToken_loop]. unfold bind at 1, atEOF.
  rewrite (unread_cons_isEOF _ _ _ Hr). unfold bind at 1.
  rewrite (unread_cons_peek _ _ _ Hr). char_tests.
  rewrite Hh, Hq, Hl, Hrb, H1, H2, H3, H4. cbn [orb].
  unfold bind. rewrite Hrun. exists r'. unfold ret. auto.
Qed.

(** X10: where the unread text starts with a character that is neither
    whitespace nor one of [#], the double quote, [{], [}], [nextToken()]
    returns the whole run of characters up to the next whitespace or the
    end of the buffer (braces, quotes and [#] inside the run included) as
    one token, a KEYWORD when the run is one of the four keywords and an
    IDENTIFIER otherwise, and stops in front of that whitespace. *)
Theorem nextToken_reads_a_word (r : BufferReader) (c : ascii) (rest : string) :
  unread_is r (String c rest) -> starts_word c = true ->
  returns_at Lexer.nextToken r
    (Some (word_token (String c (take_word rest)))) (skip_word rest).
Proof.
  intros Hr Hc. now apply nextToken_reads_a_word_at.
Qed.

Lemma nextToken_reads_a_word_witness :
  returns_at Lexer.nextToken (newBufferReader "s{ branch")
    (Some {| type := IDENTIFIER; value := "s{" |}) " branch".
Proof.
  apply (nextToken_reads_a_word (newBufferReader "s{ branch") "s" "{ branch").
  - apply unread_fresh.
  - reflexivity.
Defined.

(** ** The lexer: what comes before a token *)

(** Above the length of the unread text the budget of the loop of
    [nextToken()] has no bearing on its result. *)
Lemma nextToken_loop_any_fuel (fuel : nat) :
  forall (fuel' : nat) (rest : string) (r : BufferReader),
    unread_is r rest ->
    (String.length rest < fuel)%nat -> (String.length rest < fuel')%nat ->
    Lexer.nextToken_loop fuel r = Lexer.nextToken_loop fuel' r.
Proof.
  induction fuel as [| fuel IH]; intros fuel' rest r Hr Hfuel Hfuel'; [lia |].
  destruct fuel' as [| fuel']; [lia |].
  cbn [Lexer.nextToken_loop]. unfold bind, atEOF.
  destruct rest as [| c rest].
  { rewrite (unread_nil_isEOF r Hr). reflexivity. }
  rewrite (unread_cons_isEOF _ _ _ Hr), (unread_cons_peek _ _ _ Hr).
  pose proof (unread_cons_advance _ _ _ Hr) as Hr1.
  pose proof (unread_cons_read _ _ _ Hr) as Hread.
  simpl in Hfuel, Hfuel'. char_tests.
  assert (Hnext : Lexer.nextToken_loop fuel (advance r 1)
                  = Lexer.nextToken_loop fuel' (advance r 1)).
  { apply (IH fuel' rest); [exact Hr1 | lia | lia]. }
  destruct (Ascii.eqb_spec c "#") as [-> | Hhash].
  { destruct (comment_skips_line r rest Hr) as (s & r2 & Hrun & Hr2 & Hsrc).
    rewrite Hrun.
    pose proof (skip_line_length rest) as Hlen.
    apply (IH fuel' (skip_line rest)); [exact Hr2 | lia | lia]. }
  destruct (Ascii.eqb c "034"); [reflexivity |].
  destruct (Ascii.eqb c "{"); [reflexivity |].
  destruct (Ascii.eqb c "}"); [reflexivity |].
  destruct (Ascii.eqb c " " || Ascii.eqb c "009" || Ascii.eqb c "013"
            || Ascii.eqb c "010"); [| reflexivity].
  rewrite Hread. exact Hnext.
Qed.

(** X11: comments and whitespace in front of a token are invisible.  At a
    [#], [nextToken()] gives what it gives when called at the line break
    that ends the comment (or at the end of the buffer when there is none);
    at a space, tab, carriage return or newline it gives what it gives when
    called one character further. *)
Theorem nextToken_skips_comments_and_whitespace
  (r : BufferReader) (c : ascii) (rest : string) :
  unread_is r (String c rest) ->
  (c = "#"%char ->
   exists r2, unread_is r2 (skip_line rest) /\ _source r2 = _source r
     /\ Lexer.nextToken r = Lexer.nextToken r2)
  /\ (is_space c = true -> Lexer.nextToken r = Lexer.nextToken (advance r 1)).
Proof.
  intros Hr.
  pose proof (unread_cons_advance _ _ _ Hr) as Hr1.
  split.
  - intros ->.
    destruct (comment_skips_line r rest Hr) as (s & r2 & Hrun & Hr2 & Hsrc).
    exists r2. repeat split; [assumption | assumption |].
    unfold Lexer.nextToken, with_gas.
    rewrite (unread_gas _ _ Hr).
    cbn [Lexer.nextToken_loop]. unfold bind at 1, atEOF.
    rewrite (unread_cons_isEOF _ _ _ Hr). unfold bind at 1.
    rewrite (unread_cons_peek _ _ _ Hr). char_tests.
    cbn [Ascii.eqb Bool.eqb andb]. unfold bind at 1. rewrite Hrun.
    pose proof (skip_line_length rest) as Hlen.
    apply (nextToken_loop_any_fuel _ _ (skip_line rest));
      [assumption | simpl; lia | rewrite (unread_gas _ _ Hr2); lia].
  - intros Hsp.
    unfold Lexer.nextToken, with_gas.
    rewrite (unread_gas _ _ Hr).
    cbn [Lexer.nextToken_loop]. unfold bind at 1, atEOF.
    rewrite (unread_cons_isEOF _ _ _ Hr). unfold bind at 1.
    rewrite (unread_cons_peek _ _ _ Hr). char_tests.
    pose proof (unread_cons_read _ _ _ Hr) as Hread.
    assert (Hnext : Lexer.nextToken_loop (String.length (String c rest)) (advance r 1)
                    = Lexer.nextToken_loop (gas (advance r 1)) (advance r 1)).
    { apply (nextToken_loop_any_fuel _ _ rest);
        [assumption | simpl; lia | rewrite (unread_gas _ _ Hr1); lia]. }
    destruct (is_space_cases c Hsp) as [-> | [-> | [-> | ->]]];
      cbn [Ascii.eqb Bool.eqb andb orb]; unfold bind at 1; rewrite Hread;
      exact Hnext.
Qed.

Lemma nextToken_skips_comments_and_whitespace_witness :
  exists r2,
    unread_is r2 (skip_line " hello" ++ LF ++ "scene")
    /\ _source r2 = "# hello" ++ LF ++ "scene"
    /\ Lexer.nextToken (newBufferReader ("# hello" ++ LF ++ "scene"))
       = Lexer.nextToken r2.
Proof.
  apply (nextToken_skips_comments_and_whitespace
           (newBufferReader ("# hello" ++ LF ++ "scene")) "#"
           (" hello" ++ LF ++ "scene")).
  - apply unread_fresh.
  - reflexivity.
Defined.

(** ** The lexer: the tokens it hands out *)

Lemma yields_bind {A B} (m : M A) (f : A -> M B) (P : B -> Prop)
  (r : BufferReader) :
  (forall a r', yields P (f a r')) -> yields P (bind m f r).
Proof.
  intros Hf. unfold bind. destruct (m r) as [[a | e |] r']; simpl; auto.
Qed.

Lemma stringLiteral_loop_type (fuel : nat) :
  forall (s : string) (r : BufferReader),
    yields (fun t => type t = STRING) (Lexer.stringLiteral_loop fuel s r).
Proof.
  induction fuel as [| fuel IH]; intros s r; [exact I |].
  cbn [Lexer.stringLiteral_loop].
  apply yields_bind. intros [|] r1; [exact I |].
  apply yields_bind. intros c r2.
  apply yields_bind. intros s1 r3.
  destruct (c =? DQUOTE).
  { apply yields_bind. intros _ r4. reflexivity. }
  destruct (c =? CR).
  { apply yields_bind. intros _ r4. apply IH. }
  apply yields_bind. intros x r4.
  apply yields_bind. intros _ r5. apply IH.
Qed.

Lemma stringLiteral_type (r : BufferReader) :
  yields (fun t => type t = STRING) (Lexer.stringLiteral r).
Proof.
  unfold Lexer.stringLiteral.
  apply yields_bind. intros c r1.
  destruct (negb (c =? DQUOTE)); [exact I |].
  apply yields_bind. intros _ r2. apply stringLiteral_loop_type.
Qed.

Lemma includes_In (xs : list string) (s : string) :
  JS.includes xs s = true <-> In s xs.
Proof.
  unfold JS.includes. rewrite existsb_exists. split.
  - intros (x & Hx & Heq). apply String.eqb_eq in Heq. now subst.
  - intros Hin. exists s. split; [assumption | apply String.eqb_refl].
Qed.

Lemma take_word_no_space (s : string) : no_space (take_word s) = true.
Proof.
  induction s as [| c s IH]; [reflexivity |]. simpl.
  destruct (is_space c) eqn:E; [reflexivity |]. simpl. now rewrite E.
Qed.

Lemma word_token_well_formed (c : ascii) (rest : string) :
  is_space c = false -> well_formed (word_token (String c (take_word rest))).
Proof.
  intros Hc. unfold well_formed, word_token.
  destruct (JS.includes keywords (String c (take_word rest))) eqn:E;
    cbn [type value].
  - now apply includes_In.
  - repeat split.
    + intros Hin. apply includes_In in Hin. congruence.
    + discriminate.
    + cbn [no_space]. rewrite Hc. simpl. apply take_word_no_space.
Qed.

Lemma nextToken_loop_well_formed (fuel : nat) :
  forall (rest : string) (r : BufferReader),
    unread_is r rest -> yields well_formed_or_none (Lexer.nextToken_loop fuel r).
Proof.
  induction fuel as [| fuel IH]; intros rest r Hr; [exact I |].
  cbn [Lexer.nextToken_loop]. unfold bind at 1, atEOF.
  destruct rest as [| c rest].
  { rewrite (unread_nil_isEOF r Hr). exact I. }
  rewrite (unread_cons_isEOF _ _ _ Hr). unfold bind at 1.
  rewrite (unread_cons_peek _ _ _ Hr).
  pose proof (unread_cons_advance _ _ _ Hr) as Hr1.
  pose proof (unread_cons_read _ _ _ Hr) as Hread.
  char_tests.
  destruct (Ascii.eqb_spec c "#") as [-> | Hhash].
  { destruct (comment_skips_line r rest Hr) as (s & r2 & Hrun & Hr2 & Hsrc).
    unfold bind. rewrite Hrun. now apply (IH (skip_line rest)). }
  destruct (Ascii.eqb_spec c "034") as [-> | Hquote].
  { unfold bind. pose proof (stringLiteral_type r) as Hty.
    destruct (Lexer.stringLiteral r) as [[t | e |] r']; simpl in *; auto.
    unfold well_formed. now rewrite Hty. }
  destruct (Ascii.eqb_spec c "{") as [-> | Hl].
  { unfold bind. rewrite Hread. reflexivity. }
  destruct (Ascii.eqb_spec c "}") as [-> | Hrb].
  { unfold bind. rewrite Hread. reflexivity. }
  destruct (is_space c) eqn:Hsp.
  - destruct (is_space_cases c Hsp) as [-> | [-> | [-> | ->]]];
      cbn [Ascii.eqb Bool.eqb andb orb]; unfold bind; rewrite Hread;
      now apply (IH rest).
  - destruct (is_space_false_tests c Hsp) as (H1 & H2 & H3 & H4).
    rewrite H1, H2, H3, H4. cbn [orb].
    destruct (keywordOrIdentifier_word r c rest Hr Hsp) as (r' & Hrun & _).
    unfold bind. rewrite Hrun. simpl. now apply word_token_well_formed.
Qed.

(** X12: every token [nextToken()] hands out is what the union type
    [Token] says it is: a KEYWORD carries one of the four keywords (the
    unchecked cast is safe), an IDENTIFIER carries a non-empty text without
    whitespace that is none of the keywords, OPEN_BRACE and CLOSE_BRACE
    carry their brace, and no COMMENT token ever leaves the lexer. *)
Theorem nextToken_tokens_are_well_formed
  (r r' : BufferReader) (t : Token) :
  in_buffer r -> Lexer.nextToken r = (Return (Some t), r') ->
  well_formed t /\ type t <> COMMENT.
Proof.
  intros Hin Htok. destruct (unread_exists r Hin) as (rest & Hr).
  pose proof (nextToken_loop_well_formed (gas r) rest r Hr) as Hwf.
  unfold Lexer.nextToken, with_gas in Htok. rewrite Htok in Hwf. simpl in Hwf.
  split; [exact Hwf |].
  intros Hty. unfold well_formed in Hwf. now rewrite Hty in Hwf.
Qed.

Lemma nextToken_tokens_are_well_formed_witness :
  well_formed {| type := KEYWORD; value := "branch" |}
  /\ type {| type := KEYWORD; value := "branch" |} <> COMMENT.
Proof.
  apply (nextToken_tokens_are_well_formed
           (newBufferReader ("# about b" ++ LF ++ " branch b {"))
           {| _source := "# about b" ++ LF ++ " branch b {"; _pos := 17 |}).
  - vm_compute. split; congruence.
  - vm_compute. reflexivity.
Defined.

(** ** The lexer: progress and the end of the stream *)

(** X13: a token costs at least one character.  When [nextToken()],
    called with the cursor inside the buffer, returns a token, the source is
    the same, the cursor has moved forward and it is still inside the
    buffer. *)
Theorem nextToken_moves_forward (r r' : BufferReader) (t : Token) :
  in_buffer r -> Lexer.nextToken r = (Return (Some t), r') ->
  _source r' = _source r /\ _pos r < _pos r' /\ in_buffer r'.
Proof.
  intros Hin Htok. destruct (unread_exists r Hin) as (rest & Hr).
  pose proof (nextToken_settles r rest Hr) as Hs. rewrite Htok in Hs.
  destruct Hs as (rest' & Hr' & Hsrc & Hlen). simpl in Hlen.
  destruct (unread_in_buffer r rest Hr) as [_ Hpos].
  destruct (unread_in_buffer r' rest' Hr') as [Hin' Hpos'].
  unfold source_length in *. rewrite Hsrc in Hpos'.
  repeat split; try assumption; try apply Hin'. lia.
Qed.

Lemma nextToken_moves_forward_witness :
  _source {| _source := "  scene s"; _pos := 7 |} = _source (newBufferReader "  scene s")
  /\ _pos (newBufferReader "  scene s") < _pos {| _source := "  scene s"; _pos := 7 |}
  /\ in_buffer {| _source := "  scene s"; _pos := 7 |}.
Proof.
  apply (nextToken_moves_forward (newBufferReader "  scene s")
           {| _source := "  scene s"; _pos := 7 |}
           {| type := KEYWORD; value := "scene" |}).
  - vm_compute. split; congruence.
  - vm_compute. reflexivity.
Defined.

Lemma after_calls_at_end (n : nat) (r : BufferReader) :
  after_calls n (at_end r) = at_end r.
Proof.
  induction n as [| n IH]; [reflexivity |].
  change (after_calls (S n) (at_end r))
    with (snd (Lexer.nextToken (after_calls n (at_end r)))).
  rewrite IH.
  now rewrite (nextToken_blanks _ "" (unread_at_end r) eq_refl).
Qed.

(** X14: the end of the stream is final.  When [nextToken()], called with
    the cursor inside the buffer, returns [undefined], the cursor stands at
    the end of the buffer, and every later call returns [undefined] again
    and leaves the reader there. *)
Theorem end_of_stream_is_final (r r' : BufferReader) (n : nat) :
  in_buffer r -> Lexer.nextToken r = (Return None, r') ->
  r' = at_end r
  /\ Lexer.nextToken (after_calls n r') = (Return None, r').
Proof.
  intros Hin Hend. destruct (unread_exists r Hin) as (rest & Hr).
  pose proof (nextToken_settles r rest Hr) as Hs. rewrite Hend in Hs.
  destruct Hs as (rest' & Hr' & Hsrc & Hnil). simpl in Hnil. subst rest'.
  assert (Hr'end : r' = at_end r).
  { rewrite (unread_nil_at_end r' Hr'). now apply at_end_same_source. }
  split; [exact Hr'end |].
  rewrite Hr'end, after_calls_at_end.
  now rewrite (nextToken_blanks _ "" (unread_at_end r) eq_refl).
Qed.

Lemma end_of_stream_is_final_witness :
  Lexer.nextToken (after_calls 3 {| _source := "s  # x"; _pos := 6 |})
  = (Return None, {| _source := "s  # x"; _pos := 6 |}).
Proof.
  apply (end_of_stream_is_final {| _source := "s  # x"; _pos := 1 |}
           {| _source := "s  # x"; _pos := 6 |} 3).
  - vm_compute. split; congruence.
  - vm_compute. reflexivity.
Defined.

(** ** The lexer: string literals from any place *)

(** Where no backslash comes in the rest of the buffer, [nextToken()] at a
    quote follows the reading of the specification. *)
Lemma nextToken_plain_rest (r : BufferReader) (text : string) :
  unread_is r (String "034" text) -> no_backslash text = true ->
  fst (Lexer.nextToken r) = literal_token (literal_value false text).
Proof.
  intros Hr Hplain. unfold Lexer.nextToken, with_gas.
  rewrite (unread_gas _ _ Hr).
  cbn [Lexer.nextToken_loop]. unfold bind at 1, atEOF.
  rewrite (unread_cons_isEOF _ _ _ Hr). unfold bind at 1.
  rewrite (unread_cons_peek _ _ _ Hr). char_tests.
  cbn [Ascii.eqb Bool.eqb andb].
  unfold bind at 1, Lexer.stringLiteral. unfold bind at 1.
  rewrite (unread_cons_peek _ _ _ Hr). char_tests.
  cbn [Ascii.eqb Bool.eqb andb negb]. unfold bind at 1.
  rewrite (unread_cons_read _ _ _ Hr). unfold with_gas.
  pose proof (unread_cons_advance _ _ _ Hr) as Hr1.
  pose proof (stringLiteral_loop_plain (gas (advance r 1)) text _ "" Hplain Hr1)
    as Hloop.
  rewrite (unread_gas _ _ Hr1) in Hloop. specialize (Hloop ltac:(lia)).
  rewrite (unread_gas _ _ Hr1).
  destruct (literal_value false text) as [v |];
    [change ("" ++ v) with v in Hloop |];
    destruct (Lexer.stringLiteral_loop _ "" _) as [[t | e |] r'];
    unfold ret; simpl in Hloop |- *; congruence.
Qed.

Lemma no_quote_skip_hspace (s : string) :
  no_quote s = true -> no_quote (skip_hspace s) = true.
Proof.
  induction s as [| c s IH]; [reflexivity |]. cbn [skip_hspace].
  destruct (is_hspace c); [| trivial].
  cbn [no_quote]. intros H. apply andb_prop in H. now apply IH.
Qed.

Lemma append_cons (c : ascii) (a b : string) :
  String c a ++ b = String c (a ++ b).
Proof. reflexivity. Qed.

Lemma plain_value_collapsing (s : string) :
  plain_value true s = plain_value false (skip_hspace s).
Proof.
  induction s as [| c s IH]; [reflexivity |].
  cbn [plain_value skip_hspace].
  destruct (is_hspace c) eqn:Eh; cbn [andb].
  - exact IH.
  - cbn [plain_value]. now rewrite Eh.
Qed.

Lemma skip_hspace_before_quote (body tail : string) :
  skip_hspace (body ++ String "034" tail) = skip_hspace body ++ String "034" tail.
Proof.
  induction body as [| c body IH]; [reflexivity |].
  rewrite append_cons. cbn [skip_hspace].
  destruct (is_hspace c); [exact IH | reflexivity].
Qed.

Lemma literal_value_of_body (body tail : string) :
  forall collapsing : bool,
    no_backslash body = true -> no_quote body = true ->
    literal_value collapsing (body ++ String "034" tail)
    = Some (plain_value collapsing body).
Proof.
  induction body as [| c body IH]; intros collapsing Hbs Hq.
  - destruct collapsing; reflexivity.
  - rewrite append_cons. cbn [no_backslash no_quote] in Hbs, Hq.
    apply andb_prop in Hbs, Hq. destruct Hbs as [Hc Hbs], Hq as [Hc' Hq].
    apply negb_true_iff in Hc, Hc'.
    cbn [literal_value plain_value]. rewrite Hc, Hc'.
    destruct (collapsing && is_hspace c); [now apply IH |].
    destruct (Ascii.eqb c "013"); [now apply IH |].
    now rewrite IH.
Qed.

Lemma literal_value_unclosed (s : string) :
  forall collapsing : bool,
    no_backslash s = true -> no_quote s = true ->
    literal_value collapsing s = None.
Proof.
  induction s as [| c s IH]; intros collapsing Hbs Hq; [reflexivity |].
  cbn [no_backslash no_quote] in Hbs, Hq.
  apply andb_prop in Hbs, Hq. destruct Hbs as [Hc Hbs], Hq as [Hc' Hq].
  apply negb_true_iff in Hc, Hc'.
  cbn [literal_value]. rewrite Hc, Hc'.
  destruct (collapsing && is_hspace c); [now apply IH |].
  destruct (Ascii.eqb c "013"); [now apply IH |].
  now rewrite IH.
Qed.

(** Up to the closing quote the loop of [stringLiteral()] looks at the body
    of the literal only. *)
Lemma stringLiteral_loop_body (fuel : nat) :
  forall (body tail : string) (r : BufferReader) (s : string),
    no_backslash body = true -> no_quote body = true ->
    unread_is r (body ++ String "034" tail) ->
    (String.length (body ++ String "034" tail) < fuel)%nat ->
    returns_at (Lexer.stringLiteral_loop fuel s) r
      {| type := STRING; value := s ++ plain_value false body |} tail.
Proof.
  induction fuel as [| fuel IH]; intros body tail r s Hbs Hq Hr Hfuel; [lia |].
  unfold returns_at. cbn [Lexer.stringLiteral_loop]. unfold bind at 1, atEOF.
  destruct body as [| c body].
  { change ("" ++ String "034" tail) with (String "034" tail) in Hr.
    rewrite (unread_cons_isEOF _ _ _ Hr). unfold bind at 1.
    rewrite (unread_cons_peek _ _ _ Hr). char_tests.
    cbn [Ascii.eqb Bool.eqb andb]. unfold bind at 1. cbn [ret].
    unfold bind. rewrite (unread_cons_read _ _ _ Hr).
    exists (advance r 1). cbn [plain_value]. rewrite append_nil_r.
    repeat split. exact (unread_cons_advance _ _ _ Hr). }
  rewrite append_cons in Hr, Hfuel.
  rewrite (unread_cons_isEOF _ _ _ Hr). unfold bind at 1.
  rewrite (unread_cons_peek _ _ _ Hr).
  pose proof (unread_cons_advance _ _ _ Hr) as Hr1.
  pose proof (unread_cons_read _ _ _ Hr) as Hread.
  simpl in Hfuel. cbn [no_backslash no_quote] in Hbs, Hq.
  apply andb_prop in Hbs, Hq. destruct Hbs as [Hc Hbs], Hq as [Hc' Hq].
  apply negb_true_iff in Hc, Hc'.
  char_tests. rewrite Hc, Hc'. cbn [plain_value andb].
  unfold bind at 1. cbn [ret].
  destruct (Ascii.eqb c "013").
  { unfold bind. rewrite Hread.
    destruct (IH body tail (advance r 1) s Hbs Hq Hr1) as (r' & Hrun & Hr' & Hsrc);
      [lia |].
    exists r'. auto. }
  unfold bind at 1. rewrite Hread.
  destruct (Ascii.eqb c "010" || Ascii.eqb c " ").
  - destruct (eatWhitespace_skips _ _ Hr1) as (r2 & Hrun2 & Hr2 & Hsrc2).
    unfold bind. rewrite Hrun2.
    rewrite skip_hspace_before_quote in Hr2.
    pose proof (skip_hspace_length body) as Hlen.
    destruct (IH (skip_hspace body) tail r2 (s ++ chr c)) as (r' & Hrun & Hr' & Hsrc);
      [now apply no_backslash_skip_hspace | now apply no_quote_skip_hspace
      | exact Hr2 | rewrite length_append in *; simpl in *; lia |].
    exists r'. rewrite Hrun, <- append_cons_assoc, <- plain_value_collapsing.
    rewrite advance_source in Hsrc2. repeat split; [assumption | congruence].
  - unfold bind, ret.
    destruct (IH body tail (advance r 1) (s ++ chr c) Hbs Hq Hr1)
      as (r' & Hrun & Hr' & Hsrc); [lia |].
    exists r'. rewrite Hrun, <- append_cons_assoc. auto.
Qed.

(** X15: a string literal whose body holds neither backslash nor quote,
    wherever it stands in the source and whatever follows its closing
    quote: [nextToken()] returns a STRING token whose value is the body with
    every carriage return dropped and with the tabs and spaces that follow
    a newline or a space dropped, and leaves the reader right after the
    closing quote; when the buffer ends with such a body, no closing quote
    coming, it throws the end-of-source error. *)
Theorem nextToken_reads_a_plain_literal (r : BufferReader) (body tail : string) :
  no_backslash body = true -> no_quote body = true ->
  (unread_is r (String "034" (body ++ String "034" tail)) ->
   returns_at Lexer.nextToken r
     (Some {| type := STRING; value := plain_value false body |}) tail)
  /\ (unread_is r (String "034" body) ->
      exists r', Lexer.nextToken r = (Throw (Error "End of source"), r')).
Proof.
  intros Hbs Hq. split; intros Hr.
  - unfold returns_at, Lexer.nextToken, with_gas.
    rewrite (unread_gas _ _ Hr).
    cbn [Lexer.nextToken_loop]. unfold bind at 1, atEOF.
    rewrite (unread_cons_isEOF _ _ _ Hr). unfold bind at 1.
    rewrite (unread_cons_peek _ _ _ Hr). char_tests.
    cbn [Ascii.eqb Bool.eqb andb].
    unfold bind at 1, Lexer.stringLiteral. unfold bind at 1.
    rewrite (unread_cons_peek _ _ _ Hr). char_tests.
    cbn [Ascii.eqb Bool.eqb andb negb]. unfold bind at 1.
    rewrite (unread_cons_read _ _ _ Hr). unfold with_gas.
    pose proof (unread_cons_advance _ _ _ Hr) as Hr1.
    destruct (stringLiteral_loop_body (gas (advance r 1)) body tail
                (advance r 1) "" Hbs Hq Hr1) as (r' & Hrun & Hr' & Hsrc);
      [rewrite (unread_gas _ _ Hr1); lia |].
    rewrite Hrun. exists r'. unfold ret.
    change ("" ++ plain_value false body) with (plain_value false body).
    auto.
  - pose proof (nextToken_plain_rest r body Hr Hbs) as Hfst.
    rewrite (literal_value_unclosed body false Hbs Hq) in Hfst. simpl in Hfst.
    destruct (Lexer.nextToken r) as [o r']. simpl in Hfst. subst o. eauto.
Qed.

Lemma nextToken_reads_a_plain_literal_witness :
  let body := "a  b" ++ CR ++ LF ++ TAB ++ "c" in
  let tail := " " ++ quoted "x\y" ++ " }" in
  returns_at Lexer.nextToken
    {| _source := "jump " ++ quoted body ++ tail; _pos := 5 |}
    (Some {| type := STRING; value := "a b" ++ LF ++ "c" |}) tail.
Proof.
  intros body tail.
  destruct (nextToken_reads_a_plain_literal
              {| _source := "jump " ++ quoted body ++ tail; _pos := 5 |}
              body tail) as [Hclosed _].
  - reflexivity.
  - reflexivity.
  - apply Hclosed. exists "jump ". split; reflexivity.
Defined.


Lemma stringLiteral_loop_unterminated (fuel : nat) :
  forall (text : string) (r : BufferReader) (s : string),
    no_quote text = true ->
    unread_is r text -> (String.length text < fuel)%nat ->
    exists e r', Lexer.stringLiteral_loop fuel s r = (Throw e, r')
                 /\ unterminated e.
Proof.
  induction fuel as [| fuel IH]; intros text r s Hnq Hr Hfuel; [lia |].
  cbn [Lexer.stringLiteral_loop]. unfold bind at 1, atEOF.
  destruct text as [| c text].
  { rewrite (unread_nil_isEOF r Hr). unfold throw, unterminated. eauto. }
  rewrite (unread_cons_isEOF _ _ _ Hr). unfold bind at 1.
  rewrite (unread_cons_peek _ _ _ Hr).
  pose proof (unread_cons_advance _ _ _ Hr) as Hr1.
  pose proof (unread_cons_read _ _ _ Hr) as Hread.
  simpl in Hfuel. cbn [no_quote] in Hnq.
  apply andb_prop in Hnq. destruct Hnq as [Hc Hnq].
  apply negb_true_iff in Hc. char_tests.
  destruct (Ascii.eqb_spec c "\") as [-> | Hesc].
  - unfold bind. rewrite Hread.
    destruct text as [| d text].
    { rewrite (unread_nil_read _ Hr1). unfold unterminated. eauto. }
    rewrite (unread_cons_read _ _ _ Hr1).
    pose proof (unread_cons_advance _ _ _ Hr1) as Hr2.
    cbn [ret Ascii.eqb Bool.eqb orb andb].
    destruct text as [| e text].
    { rewrite (unread_nil_read _ Hr2). unfold unterminated. eauto. }
    rewrite (unread_cons_read _ _ _ Hr2).
    pose proof (unread_cons_advance _ _ _ Hr2) as Hr3.
    cbn [no_quote] in Hnq.
    apply andb_prop in Hnq. destruct Hnq as [_ Hnq].
    apply andb_prop in Hnq. destruct Hnq as [_ Hnq].
    apply (IH text); [exact Hnq | exact Hr3 | simpl in Hfuel; lia].
  - unfold bind at 1. cbn [ret]. rewrite Hc.
    destruct (Ascii.eqb c "013").
    { unfold bind. rewrite Hread. apply (IH text); [exact Hnq | exact Hr1 | lia]. }
    unfold bind at 1. rewrite Hread.
    destruct (Ascii.eqb c "010" || Ascii.eqb c " ").
    + destruct (eatWhitespace_skips _ _ Hr1) as (r2 & Hrun & Hr2 & Hsrc).
      unfold bind. rewrite Hrun.
      pose proof (skip_hspace_length text) as Hlen.
      apply (IH (skip_hspace text));
        [now apply no_quote_skip_hspace | exact Hr2 | lia].
    + unfold bind, ret. apply (IH text); [exact Hnq | exact Hr1 | lia].
Qed.

(** X16: a literal that is never closed is never cut short into a token.
    When no double quote follows the opening one, [nextToken()] throws: the
    end-of-source error, or the bounds error of the reader when the text
    ends inside or right after an escape. *)
Theorem nextToken_unterminated_literal_throws (r : BufferReader) (text : string) :
  unread_is r (String "034" text) -> no_quote text = true ->
  exists e r', Lexer.nextToken r = (Throw e, r') /\ unterminated e.
Proof.
  intros Hr Hnq. unfold Lexer.nextToken, with_gas.
  rewrite (unread_gas _ _ Hr).
  cbn [Lexer.nextToken_loop]. unfold bind at 1, atEOF.
  rewrite (unread_cons_isEOF _ _ _ Hr). unfold bind at 1.
  rewrite (unread_cons_peek _ _ _ Hr). char_tests.
  cbn [Ascii.eqb Bool.eqb andb].
  unfold bind at 1, Lexer.stringLiteral. unfold bind at 1.
  rewrite (unread_cons_peek _ _ _ Hr). char_tests.
  cbn [Ascii.eqb Bool.eqb andb negb]. unfold bind at 1.
  rewrite (unread_cons_read _ _ _ Hr). unfold with_gas.
  pose proof (unread_cons_advance _ _ _ Hr) as Hr1.
  destruct (stringLiteral_loop_unterminated (gas (advance r 1)) text
              (advance r 1) "" Hnq Hr1) as (e & r' & Hrun & He);
    [rewrite (unread_gas _ _ Hr1); lia |].
  rewrite Hrun. eauto.
Qed.

Lemma nextToken_unterminated_literal_throws_witness :
  exists e r', Lexer.nextToken (newBufferReader (DQUOTE ++ "abc\")) = (Throw e, r')
               /\ unterminated e.
Proof.
  apply (nextToken_unterminated_literal_throws
           (newBufferReader (DQUOTE ++ "abc\")) "abc\").
  - apply unread_fresh.
  - reflexivity.
Defined.

(** ** The parser: it ends, and at the end of the source *)

Lemma run_settled {A} (m : M A) (r : BufferReader) (rest : string)
  (post : A -> string -> Prop) :
  settles r post (m r) ->
  match m r with
  | (Return a, r') =>
      exists rest', unread_is r' rest' /\ _source r' = _source r /\ post a rest'
  | (Throw _, _) => True
  | (OutOfFuel, _) => False
  end.
Proof. unfold settles. destruct (m r) as [[a | e |] r']; auto. Qed.

Lemma parse_loop_returns_at_end (fuel : nat) :
  forall (rest : string) (r : BufferReader) (scenes : list Scene)
         (authors : list Author),
    unread_is r rest ->
    returns_at_end r (Parser.parse_loop fuel scenes authors r).
Proof.
  induction fuel as [| fuel IH]; intros rest r scenes authors Hr; [exact I |].
  cbn [Parser.parse_loop]. unfold bind at 1.
  pose proof (run_settled _ r rest _ (nextToken_settles r rest Hr)) as Hs.
  destruct (Lexer.nextToken r) as [[[t |] | e |] r1]; try exact I;
    destruct Hs as (rest1 & Hr1 & Hsrc1 & Htaken); simpl in Htaken.
  - assert (Hagain : forall (r2 : BufferReader) (rest2 : string) scenes' authors',
               unread_is r2 rest2 -> _source r2 = _source r1 ->
               returns_at_end r (Parser.parse_loop fuel scenes' authors' r2)).
    { intros r2 rest2 scenes' authors' Hr2 Hsrc2.
      pose proof (IH rest2 r2 scenes' authors' Hr2) as H.
      unfold returns_at_end in *.
      destruct (Parser.parse_loop fuel scenes' authors' r2) as [[ss | e |] r']; auto.
      rewrite H. apply at_end_same_source. congruence. }
    destruct (type t); try exact I.
    destruct (value t =? "author").
    { unfold bind.
      pose proof (run_settled _ r1 rest1 _ (author_settles r1 rest1 Hr1)) as Ha.
      destruct (Parser.author r1) as [[a | e |] r2]; try exact I.
      destruct Ha as (rest2 & Hr2 & Hsrc2 & _). now apply (Hagain r2 rest2). }
    destruct (value t =? "scene"); [| exact I].
    unfold bind.
    pose proof (run_settled _ r1 rest1 _ (scene_settles r1 rest1 Hr1)) as Ha.
    destruct (Parser.scene r1) as [[s | e |] r2]; try exact I.
    destruct Ha as (rest2 & Hr2 & Hsrc2 & _). now apply (Hagain r2 rest2).
  - subst rest1. simpl.
    rewrite (unread_nil_at_end r1 Hr1). now apply at_end_same_source.
Qed.

(** X17: [parse()] always finishes, and never with part of the source left
    over.  Every turn of every loop of the lexer and of the parser consumes
    at least one character, so on every source the call returns a document
    or throws; and when it returns, the cursor stands at the end of the
    buffer. *)
Theorem parse_finishes_at_end_of_source (source : string) :
  parse_source source <> OutOfFuel
  /\ forall (scenes : list Scene) (r' : BufferReader),
       Parser.parse (newBufferReader source) = (Return scenes, r') ->
       r' = at_end (newBufferReader source).
Proof.
  split; [apply parse_total |].
  intros scenes r' Hrun.
  pose proof (parse_loop_returns_at_end (gas (newBufferReader source)) source
                (newBufferReader source) [] [] (unread_fresh source)) as H.
  unfold Parser.parse, with_gas in Hrun. now rewrite Hrun in H.
Qed.

Lemma parse_finishes_at_end_of_source_witness :
  {| _source := flat_example; _pos := 49 |} = at_end (newBufferReader flat_example).
Proof.
  destruct (parse_finishes_at_end_of_source flat_example) as [_ Hend].
  apply (Hend [ {| scene_id := "s"; _authors := [mkAuthor "a"];
                   _branches := {[ "b" := mkBranch "b" ]} |} ]).
  vm_compute. reflexivity.
Defined.

(** X18: a source with nothing but whitespace and comments, the empty
    source included, is the empty document: [parse()] returns an empty list
    of scenes and throws nothing. *)
Theorem parse_blank_source_is_empty_document (source : string) :
  only_blanks source = true ->
  Parser.parse (newBufferReader source)
  = (Return [], at_end (newBufferReader source)).
Proof.
  intros Hblank. unfold Parser.parse, with_gas, gas.
  cbn [Parser.parse_loop]. unfold bind.
  now rewrite (nextToken_blanks _ source (unread_fresh source) Hblank).
Qed.

Lemma parse_blank_source_is_empty_document_witness :
  Parser.parse (newBufferReader ("# nothing here" ++ LF ++ "  "))
  = (Return [], at_end (newBufferReader ("# nothing here" ++ LF ++ "  "))).
Proof.
  apply (parse_blank_source_is_empty_document ("# nothing here" ++ LF ++ "  ")).
  reflexivity.
Defined.

(** ** The parser: blocks that are closed *)

Lemma closes_true (t : Token) :
  closes t = true -> TokenType_eqb (type t) CLOSE_BRACE = true.
Proof. trivial. Qed.

Lemma author_loop_closes (r r' : BufferReader) :
  closes_after r r' ->
  forall (rest : string) (fuel : nat) (author : Author),
    unread_is r rest -> (String.length rest < fuel)%nat ->
    Parser.author_loop fuel author r = (Return author, r').
Proof.
  induction 1 as [r r' t Htok Hty | r r1 r' t Htok Hty _ IH];
    intros rest fuel author Hr Hfuel; (destruct fuel as [| fuel]; [lia |]).
  - cbn [Parser.author_loop]. unfold bind. rewrite Htok.
    now rewrite (closes_true t Hty).
  - rewrite (author_loop_skip r r1 fuel t Htok author (closes_false t Hty)).
    destruct (token_leaves_less r r1 rest t Hr Htok) as (rest1 & Hr1 & Hlen).
    apply (IH rest1); [exact Hr1 | lia].
Qed.

Lemma branch_loop_closes (r r' : BufferReader) :
  closes_after r r' ->
  forall (rest : string) (fuel : nat) (branch : Branch) (scene : Scene),
    unread_is r rest -> (String.length rest < fuel)%nat ->
    Parser.branch_loop fuel branch scene r = (Return (addBranch branch scene), r').
Proof.
  induction 1 as [r r' t Htok Hty | r r1 r' t Htok Hty _ IH];
    intros rest fuel branch scene Hr Hfuel; (destruct fuel as [| fuel]; [lia |]).
  - cbn [Parser.branch_loop]. unfold bind. rewrite Htok.
    now rewrite (closes_true t Hty).
  - rewrite (branch_loop_skip r r1 fuel t Htok branch scene (closes_false t Hty)).
    destruct (token_leaves_less r r1 rest t Hr Htok) as (rest1 & Hr1 & Hlen).
    apply (IH rest1); [exact Hr1 | lia].
Qed.

(** X19: [author()] takes the identifier for the id of the author and then
    drops every token up to and including the first CLOSE_BRACE, whatever
    those tokens are: no opening brace is asked for, and keywords, strings
    and opening braces in between are swallowed.  It returns the author and
    leaves the reader right after that brace. *)
Theorem author_ends_at_first_close_brace
  (r r1 r' : BufferReader) (t : Token) :
  in_buffer r ->
  Lexer.nextToken r = (Return (Some t), r1) -> type t = IDENTIFIER ->
  closes_after r1 r' ->
  Parser.author r = (Return (mkAuthor (value t)), r').
Proof.
  intros Hin Hid Hty Hclose. destruct (unread_exists r Hin) as (rest & Hr).
  unfold Parser.author, bind. rewrite Hid. simpl. rewrite Hty. simpl.
  destruct (token_leaves_less r r1 rest t Hr Hid) as (rest1 & Hr1 & Hlen).
  unfold with_gas. apply (author_loop_closes r1 r' Hclose rest1); [exact Hr1 |].
  rewrite (unread_gas _ _ Hr1). lia.
Qed.

Lemma author_ends_at_first_close_brace_witness :
  Parser.author (newBufferReader "a branch b { } }")
  = (Return (mkAuthor "a"), {| _source := "a branch b { } }"; _pos := 14 |}).
Proof.
  apply (author_ends_at_first_close_brace (newBufferReader "a branch b { } }")
           {| _source := "a branch b { } }"; _pos := 1 |}
           {| _source := "a branch b { } }"; _pos := 14 |}
           {| type := IDENTIFIER; value := "a" |}).
  - vm_compute. split; congruence.
  - vm_compute. reflexivity.
  - reflexivity.
  - apply (closes_later _ {| _source := "a branch b { } }"; _pos := 8 |} _
             {| type := KEYWORD; value := "branch" |});
      [vm_compute; reflexivity | reflexivity |].
    apply (closes_later _ {| _source := "a branch b { } }"; _pos := 10 |} _
             {| type := IDENTIFIER; value := "b" |});
      [vm_compute; reflexivity | reflexivity |].
    apply (closes_later _ {| _source := "a branch b { } }"; _pos := 12 |} _
             {| type := OPEN_BRACE; value := "{" |});
      [vm_compute; reflexivity | reflexivity |].
    apply (closes_now _ _ {| type := CLOSE_BRACE; value := "}" |});
      [vm_compute; reflexivity | reflexivity].
Defined.

(** X20: [branch(scene)] takes the identifier for the id of the branch,
    drops every token up to and including the first CLOSE_BRACE, and files
    the branch in the scene under that id: a lookup of the id in the branch
    map of the scene then gives the branch, and the authors of the scene
    are as before. *)
Theorem branch_registers_at_first_close_brace
  (r r1 r' : BufferReader) (t : Token) (scene : Scene) :
  in_buffer r ->
  Lexer.nextToken r = (Return (Some t), r1) -> type t = IDENTIFIER ->
  closes_after r1 r' ->
  exists scene',
    Parser.branch scene r = (Return scene', r')
    /\ _branches scene' !! value t = Some (mkBranch (value t))
    /\ (forall id, id <> value t -> _branches scene' !! id = _branches scene !! id)
    /\ _authors scene' = _authors scene
    /\ scene_id scene' = scene_id scene.
Proof.
  intros Hin Hid Hty Hclose. destruct (unread_exists r Hin) as (rest & Hr).
  exists (addBranch (mkBranch (value t)) scene). split.
  - unfold Parser.branch, bind. rewrite Hid. simpl. rewrite Hty. simpl.
    destruct (token_leaves_less r r1 rest t Hr Hid) as (rest1 & Hr1 & Hlen).
    unfold with_gas. apply (branch_loop_closes r1 r' Hclose rest1); [exact Hr1 |].
    rewrite (unread_gas _ _ Hr1). lia.
  - unfold addBranch. simpl. repeat split.
    + apply lookup_insert_eq.
    + intros id Hne. apply lookup_insert_ne. congruence.
Qed.

Lemma branch_registers_at_first_close_brace_witness :
  exists scene',
    Parser.branch (newScene "s") (newBufferReader "b { jump c }")
    = (Return scene', {| _source := "b { jump c }"; _pos := 12 |})
    /\ _branches scene' !! "b" = Some (mkBranch "b")
    /\ (forall id, id <> "b" -> _branches scene' !! id = _branches (newScene "s") !! id)
    /\ _authors scene' = _authors (newScene "s")
    /\ scene_id scene' = scene_id (newScene "s").
Proof.
  apply (branch_registers_at_first_close_brace (newBufferReader "b { jump c }")
           {| _source := "b { jump c }"; _pos := 1 |}
           {| _source := "b { jump c }"; _pos := 12 |}
           {| type := IDENTIFIER; value := "b" |}).
  - vm_compute. split; congruence.
  - vm_compute. reflexivity.
  - reflexivity.
  - apply (closes_later _ {| _source := "b { jump c }"; _pos := 3 |} _
             {| type := OPEN_BRACE; value := "{" |});
      [vm_compute; reflexivity | reflexivity |].
    apply (closes_later _ {| _source := "b { jump c }"; _pos := 8 |} _
             {| type := KEYWORD; value := "jump" |});
      [vm_compute; reflexivity | reflexivity |].
    apply (closes_later _ {| _source := "b { jump c }"; _pos := 10 |} _
             {| type := IDENTIFIER; value := "c" |});
      [vm_compute; reflexivity | reflexivity |].
    apply (closes_now _ _ {| type := CLOSE_BRACE; value := "}" |});
      [vm_compute; reflexivity | reflexivity].
Defined.

(** ** The parser: what holds of the scenes it builds *)

Lemma yields_after {A B} (m : M A) (f : A -> M B) (Q : A -> Prop)
  (P : B -> Prop) (r : BufferReader) :
  yields Q (m r) ->
  (forall a r', Q a -> yields P (f a r')) ->
  yields P (bind m f r).
Proof.
  intros Hm Hf. unfold bind. destruct (m r) as [[a | e |] r']; simpl in *; auto.
Qed.

Lemma addBranch_keyed (branch : Branch) (scene : Scene) :
  keyed_by_id scene -> keyed_by_id (addBranch branch scene).
Proof.
  intros Hkey id b. unfold addBranch. simpl.
  destruct (decide (branch_id branch = id)) as [<- | Hne].
  - rewrite lookup_insert_eq. congruence.
  - rewrite lookup_insert_ne by assumption. apply Hkey.
Qed.

Lemma attach_ok (authors : list Author) (scene : Scene) :
  scene_ok scene -> scene_ok (attach authors scene).
Proof.
  intros [Hnd Hkey]. split; [now apply attach_NoDup |].
  unfold keyed_by_id. destruct (attach_frame authors scene) as [_ ->]. exact Hkey.
Qed.

Lemma branch_loop_keeps_building (fuel : nat) (id : string) :
  forall (branch : Branch) (scene : Scene) (r : BufferReader),
    being_built id scene ->
    yields (being_built id) (Parser.branch_loop fuel branch scene r).
Proof.
  induction fuel as [| fuel IH]; intros branch scene r Hb; [exact I |].
  cbn [Parser.branch_loop]. apply yields_bind. intros [t |] r1; [| exact Hb].
  destruct (TokenType_eqb (type t) CLOSE_BRACE); [| now apply IH].
  destruct Hb as (Hid & Hauth & Hkey). simpl.
  repeat split; [assumption | assumption | now apply addBranch_keyed].
Qed.

Lemma branch_keeps_building (id : string) (scene : Scene) (r : BufferReader) :
  being_built id scene -> yields (being_built id) (Parser.branch scene r).
Proof.
  intros Hb. unfold Parser.branch. apply yields_bind. intros token r1.
  destruct (Parser.has_type IDENTIFIER token); [| exact I].
  unfold with_gas. now apply branch_loop_keeps_building.
Qed.

Lemma scene_loop_builds (fuel : nat) (id : string) :
  forall (scene : Scene) (authors : list Author) (r : BufferReader),
    being_built id scene ->
    yields (fun s => scene_id s = id /\ scene_ok s)
      (Parser.scene_loop fuel scene authors r).
Proof.
  induction fuel as [| fuel IH]; intros scene authors r Hb; [exact I |].
  cbn [Parser.scene_loop]. apply yields_bind. intros [t |] r1; [| exact I].
  destruct (TokenType_eqb (type t) KEYWORD && (value t =? "author")).
  { apply yields_bind. intros a r2. now apply IH. }
  destruct (TokenType_eqb (type t) KEYWORD && (value t =? "branch")).
  { apply (yields_after _ _ (being_built id)); [now apply branch_keeps_building |].
    intros scene' r2 Hb'. now apply IH. }
  destruct (TokenType_eqb (type t) CLOSE_BRACE); [| now apply IH].
  destruct Hb as (Hid & Hauth & Hkey). simpl.
  change (fold_left (fun s a => addAuthor a s) authors scene)
    with (attach authors scene).
  split.
  - destruct (attach_frame authors scene) as [-> _]. exact Hid.
  - apply attach_ok. split; [| exact Hkey].
    unfold author_ids. rewrite Hauth. apply List.NoDup_nil.
Qed.

Lemma newScene_being_built (id : string) : being_built id (newScene id).
Proof.
  repeat split. intros i b. unfold newScene. simpl.
  rewrite lookup_empty. discriminate.
Qed.

Lemma scene_builds (r : BufferReader) :
  yields scene_ok (Parser.scene r).
Proof.
  unfold Parser.scene. apply yields_bind. intros token r1.
  destruct (Parser.has_type IDENTIFIER token) as [t |]; [| exact I].
  apply yields_bind. intros token2 r2.
  destruct (Parser.has_type OPEN_BRACE token2); [| exact I].
  unfold with_gas.
  pose proof (scene_loop_builds (gas r2) (value t) (newScene (value t)) [] r2
                (newScene_being_built (value t))) as H.
  destruct (Parser.scene_loop _ _ _ r2) as [[s | e |] r']; simpl in *; tauto.
Qed.

(** X21: the scene [scene()] returns carries the identifier that followed
    the keyword as its id, lists no author id twice however often the body
    names an author, and files every branch under the id of that branch. *)
Theorem scene_returns_a_well_formed_scene
  (r r1 r' : BufferReader) (t : Token) (s : Scene) :
  Lexer.nextToken r = (Return (Some t), r1) ->
  Parser.scene r = (Return s, r') ->
  scene_id s = value t
  /\ List.NoDup (author_ids s)
  /\ forall (id : string) (b : Branch),
       _branches s !! id = Some b -> branch_id b = id.
Proof.
  intros Htok Hrun. unfold Parser.scene, bind in Hrun. rewrite Htok in Hrun.
  destruct (Parser.has_type IDENTIFIER (Some t)) as [t' |] eqn:Et;
    [| discriminate].
  assert (t' = t) as ->.
  { simpl in Et. destruct (TokenType_eqb (type t) IDENTIFIER); congruence. }
  destruct (Lexer.nextToken r1) as [[token2 | e |] r2]; try discriminate.
  destruct (Parser.has_type OPEN_BRACE token2); [| discriminate].
  unfold with_gas in Hrun.
  pose proof (scene_loop_builds (gas r2) (value t) (newScene (value t)) [] r2
                (newScene_being_built (value t))) as H.
  rewrite Hrun in H. destruct H as (Hid & Hnd & Hkey). auto.
Qed.

Lemma scene_returns_a_well_formed_scene_witness :
  let s := {| scene_id := "s"; _authors := [mkAuthor "a"];
              _branches := {[ "b" := mkBranch "b" ]} |} in
  scene_id s = "s"
  /\ List.NoDup (author_ids s)
  /\ forall (id : string) (b : Branch),
       _branches s !! id = Some b -> branch_id b = id.
Proof.
  intros s.
  apply (scene_returns_a_well_formed_scene
           (newBufferReader "s { author a } author a } branch b } }")
           {| _source := "s { author a } author a } branch b } }"; _pos := 1 |}
           {| _source := "s { author a } author a } branch b } }"; _pos := 38 |}
           {| type := IDENTIFIER; value := "s" |} s).
  - vm_compute. reflexivity.
  - vm_compute. reflexivity.
Defined.

(** ** The parser: what holds of the document *)

Lemma broadcast_ok (authors : list Author) (scenes : list Scene) :
  (forall s, In s scenes -> scene_ok s) ->
  forall s, In s (Parser.broadcast authors scenes) -> scene_ok s.
Proof.
  intros Hok s Hs. rewrite broadcast_is_attach in Hs.
  apply in_map_iff in Hs. destruct Hs as (s0 & <- & Hs0).
  apply attach_ok. now apply Hok.
Qed.

Lemma parse_loop_builds (fuel : nat) :
  forall (scenes : list Scene) (authors : list Author) (r : BufferReader),
    (forall s, In s scenes -> scene_ok s) ->
    yields (fun ss => forall s, In s ss -> scene_ok s)
      (Parser.parse_loop fuel scenes authors r).
Proof.
  induction fuel as [| fuel IH]; intros scenes authors r Hok; [exact I |].
  cbn [Parser.parse_loop]. apply yields_bind. intros [t |] r1.
  - destruct (type t); try exact I.
    destruct (value t =? "author").
    { apply yields_bind. intros a r2. now apply IH. }
    destruct (value t =? "scene"); [| exact I].
    apply (yields_after _ _ scene_ok); [apply scene_builds |].
    intros s r2 Hs. apply IH. intros s' Hin.
    apply in_app_iff in Hin. destruct Hin as [Hin | [<- | []]]; auto.
  - simpl. now apply broadcast_ok.
Qed.

(** X22: in every document [parse()] returns, no scene lists an author id
    twice (nested declarations and the final broadcast together add each id
    at most once), and every branch of every scene is filed under its own
    id. *)
Theorem parse_returns_well_formed_scenes
  (source : string) (scenes : list Scene) :
  parse_source source = Return scenes ->
  forall s : Scene,
    In s scenes ->
    List.NoDup (author_ids s)
    /\ forall (id : string) (b : Branch),
         _branches s !! id = Some b -> branch_id b = id.
Proof.
  intros Hrun s Hs. unfold parse_source, Parser.parse, with_gas in Hrun.
  pose proof (parse_loop_builds (gas (newBufferReader source)) [] []
                (newBufferReader source)) as H.
  destruct (Parser.parse_loop _ [] [] _) as [[ss | e |] r']; simpl in Hrun;
    try discriminate.
  injection Hrun as ->. apply H; [intros s' [] | assumption].
Qed.

Lemma parse_returns_well_formed_scenes_witness :
  let s := {| scene_id := "s"; _authors := [mkAuthor "a"; mkAuthor "c"];
              _branches := {[ "b" := mkBranch "b" ]} |} in
  List.NoDup (author_ids s)
  /\ forall (id : string) (b : Branch),
       _branches s !! id = Some b -> branch_id b = id.
Proof.
  intros s.
  apply (parse_returns_well_formed_scenes
           "author a } scene s { author a } branch b } author a } } author c }"
           [s]).
  - vm_compute. reflexivity.
  - now left.
Defined.




(** ** The parser: what it rejects *)

(** X24: a source that begins with a word other than [author] and [scene]
    is rejected at that first token: with the error that names the keyword
    when the word is [branch] or [jump], and with the error that names the
    token type IDENTIFIER otherwise. *)
Theorem parse_rejects_other_first_word (c : ascii) (rest : string) :
  starts_word c = true ->
  let w := String c (take_word rest) in
  w <> "author" -> w <> "scene" ->
  parse_source (String c rest)
  = Throw (Error (if JS.includes keywords w
                  then "Expected keyword 'author' or 'scene', got '" ++ w ++ "'"
                  else "Unexpected token type 'IDENTIFIER'")).
Proof.
  intros Hc w Ha Hs.
  pose proof (unread_fresh (String c rest)) as Hr.
  destruct (nextToken_reads_a_word_at _ c rest Hr Hc) as (r' & Hrun & _).
  unfold parse_source, Parser.parse, with_gas, gas.
  cbn [Parser.parse_loop]. unfold bind. rewrite Hrun.
  unfold word_token. fold w.
  destruct (JS.includes keywords w); cbn [type value fst]; [| reflexivity].
  destruct (String.eqb_spec w "author"); [contradiction |].
  destruct (String.eqb_spec w "scene"); [contradiction |].
  reflexivity.
Qed.

Lemma parse_rejects_other_first_word_witness :
  parse_source "branch b { }"
  = Throw (Error "Expected keyword 'author' or 'scene', got 'branch'").
Proof.
  apply (parse_rejects_other_first_word "b" "ranch b { }");
    [reflexivity | discriminate | discriminate].
Defined.

(** X25: [author()] on a block that is never closed.  When after the
    identifier the stream ends before any CLOSE_BRACE, on whatever source,
    [author()] throws the syntax error that names the missing brace, and
    returns no author. *)
Theorem author_unterminated_throws
  (r r1 r' : BufferReader) (t : Token) :
  in_buffer r ->
  Lexer.nextToken r = (Return (Some t), r1) -> type t = IDENTIFIER ->
  ends_unclosed r1 r' ->
  Parser.author r
  = (Throw (SyntaxError "Expected CLOSE_BRACE but reached EOF"), r').
Proof.
  intros Hin Hid Hty Hopen. destruct (unread_exists r Hin) as (rest & Hr).
  unfold Parser.author, bind. rewrite Hid. simpl. rewrite Hty. simpl.
  destruct (token_leaves_less r r1 rest t Hr Hid) as (rest1 & Hr1 & Hlen).
  unfold with_gas. apply (author_loop_unclosed r1 r' Hopen rest1); [exact Hr1 |].
  rewrite (unread_gas _ _ Hr1). lia.
Qed.

Lemma author_unterminated_throws_witness :
  Parser.author (newBufferReader "a {")
  = (Throw (SyntaxError "Expected CLOSE_BRACE but reached EOF"),
     {| _source := "a {"; _pos := 3 |}).
Proof.
  apply (author_unterminated_throws (newBufferReader "a {")
           {| _source := "a {"; _pos := 1 |} {| _source := "a {"; _pos := 3 |}
           {| type := IDENTIFIER; value := "a" |}).
  - vm_compute. split; congruence.
  - vm_compute. reflexivity.
  - reflexivity.
  - apply (avoiding_token _ _ {| _source := "a {"; _pos := 3 |} _
             {| type := OPEN_BRACE; value := "{" |});
      [vm_compute; reflexivity | reflexivity |].
    apply avoiding_end. vm_compute. reflexivity.
Defined.

(** X26: [scene()] on a body that is never closed.  When after the
    identifier and the opening brace the stream ends on tokens that are
    neither [author], nor [branch], nor a CLOSE_BRACE, [scene()] throws the
    syntax error that names the missing brace, and returns no scene. *)
Theorem scene_unterminated_throws
  (r r1 r2 r' : BufferReader) (t t2 : Token) :
  in_buffer r ->
  Lexer.nextToken r = (Return (Some t), r1) -> type t = IDENTIFIER ->
  Lexer.nextToken r1 = (Return (Some t2), r2) -> type t2 = OPEN_BRACE ->
  ends_avoiding scene_item r2 r' ->
  Parser.scene r
  = (Throw (SyntaxError "Expected CLOSE_BRACE but reached EOF"), r').
Proof.
  intros Hin Hid Hty Hbrace Hty2 Hopen.
  destruct (unread_exists r Hin) as (rest & Hr).
  unfold Parser.scene, bind. rewrite Hid. simpl. rewrite Hty. simpl.
  rewrite Hbrace. simpl. rewrite Hty2. simpl.
  destruct (token_leaves_less r r1 rest t Hr Hid) as (rest1 & Hr1 & Hlen1).
  destruct (token_leaves_less r1 r2 rest1 t2 Hr1 Hbrace) as (rest2 & Hr2 & Hlen2).
  unfold with_gas. apply (scene_loop_unclosed r2 r' Hopen rest2); [exact Hr2 |].
  rewrite (unread_gas _ _ Hr2). lia.
Qed.

Lemma scene_unterminated_throws_witness :
  Parser.scene (newBufferReader "s { x")
  = (Throw (SyntaxError "Expected CLOSE_BRACE but reached EOF"),
     {| _source := "s { x"; _pos := 5 |}).
Proof.
  apply (scene_unterminated_throws (newBufferReader "s { x")
           {| _source := "s { x"; _pos := 1 |} {| _source := "s { x"; _pos := 3 |}
           {| _source := "s { x"; _pos := 5 |}
           {| type := IDENTIFIER; value := "s" |}
           {| type := OPEN_BRACE; value := "{" |}).
  - vm_compute. split; congruence.
  - vm_compute. reflexivity.
  - reflexivity.
  - vm_compute. reflexivity.
  - reflexivity.
  - apply (avoiding_token _ _ {| _source := "s { x"; _pos := 5 |} _
             {| type := IDENTIFIER; value := "x" |});
      [vm_compute; reflexivity | reflexivity |].
    apply avoiding_end. vm_compute. reflexivity.
Defined.
